(** * A radix trie with sentence search: the code of [src/utils/RadixTrie.py]

    The development embeds the classes [RadixNode] and [RadixTrie] of the
    Python source and settles the properties stated about them.

    Modelling choices, all taken from the source:
    - a Python [str] is a [string]; [s[0]] on the empty string raises
      [IndexError];
    - [children] is a Python [dict] keyed by one-character strings
      ([word[0]], [matching[0]], [remaining_prefix[0]]): an association list
      in insertion order, keyed by [ascii];
    - nodes are mutable objects with an identity; [add] updates them in
      place.  The model is a tree whose nodes carry their identity, an
      updated child is stored back under the key it was read from, and fresh
      identities come from a counter;
    - every node of one trie holds the same [root] object, so [find] receives
      the root as an argument instead of reading a back pointer;
    - [find] is wrapped by [functools.cache]: the cache is a finite map that
      belongs to the function, is keyed by the call's arguments (the node's
      identity first), and is threaded through every call;
    - recursion is bounded by a fuel argument; [NoFuel] is the answer of a
      computation that needs more calls than the fuel allows.  A call that
      answers [NoFuel] for every fuel is one that recurses without end
      (CPython stops it with [RecursionError]); the interpreter's own
      recursion limit is not modelled. *)

From stdpp Require Import base decidable option list gmap strings.
From Stdlib Require Import ZArith Ascii String Lia.

Local Open Scope string_scope.
Local Open Scope Z_scope.

(** ** Python strings *)

Module PyStr.

(** [s[:i]] *)
Fixpoint slice_to (i : nat) (s : string) : string :=
  match i, s with
  | S i', String c s' => String c (slice_to i' s')
  | _, _ => EmptyString
  end.

(** [s[i:]] *)
Fixpoint slice_from (i : nat) (s : string) : string :=
  match i, s with
  | S i', String _ s' => slice_from i' s'
  | _, _ => s
  end.

End PyStr.

(** ** Python dictionaries with one-character keys *)

Module PyDict.

Section Dict.
Context {V : Type}.

(** [d.get(k, None)] *)
Fixpoint get (k : ascii) (d : list (ascii * V)) : option V :=
  match d with
  | [] => None
  | (k', v) :: d' => if Ascii.eqb k k' then Some v else get k d'
  end.

(** [d[k] = v]: an existing key keeps its place, a new one goes last. *)
Fixpoint setitem (k : ascii) (v : V) (d : list (ascii * V)) : list (ascii * V) :=
  match d with
  | [] => [(k, v)]
  | (k', v') :: d' =>
      if Ascii.eqb k k' then (k', v) :: d' else (k', v') :: setitem k v d'
  end.

(** [d.keys()] *)
Definition keys (d : list (ascii * V)) : list ascii := map fst d.
End Dict.

End PyDict.

(** ** Exceptions and outcomes *)

Inductive exn : Type := IndexError | KeyError | AssertionError.

Inductive outcome (A : Type) : Type :=
| Return (a : A)
| Raise (e : exn)
| NoFuel.

Arguments Return {A} a.
Arguments Raise {A} e.
Arguments NoFuel {A}.

(** ** The cache of [functools.cache]

    The key is built from the arguments as they are written at the call:
    [root.find(word)], [node.find(word, loop)] and
    [root.find(string, loop=True)] make three different shapes of key. *)

Inductive call_args : Type :=
| OnlyWord
| Positional (loop : bool)
| Keyword (loop : bool).

Definition loop_of (a : call_args) : bool :=
  match a with
  | OnlyWord => false
  | Positional b | Keyword b => b
  end.

#[global] Instance call_args_eq_dec : EqDecision call_args.
Proof. solve_decision. Defined.

#[global] Instance call_args_countable : Countable call_args.
Proof.
  refine (inj_countable'
    (λ a, match a with
          | OnlyWord => inl ()
          | Positional b => inr (inl b)
          | Keyword b => inr (inr b)
          end)
    (λ x, match x with
          | inl _ => OnlyWord
          | inr (inl b) => Positional b
          | inr (inr b) => Keyword b
          end) _).
  by intros [].
Defined.

Abbreviation cache := (gmap (nat * string * call_args) Z).

(** ** class RadixNode *)

Module RadixNode.

#[local] Set Warnings "-register-all".

Inductive t : Type :=
| Node (nid : nat) (prefix : string) (is_leaf : bool)
       (children : list (ascii * t)).

Definition nid (n : t) : nat := let 'Node i _ _ _ := n in i.
Definition prefix (n : t) : string := let 'Node _ p _ _ := n in p.
Definition is_leaf (n : t) : bool := let 'Node _ _ l _ := n in l.
Definition children (n : t) : list (ascii * t) := let 'Node _ _ _ c := n in c.

Definition set_prefix (p : string) (n : t) : t :=
  let 'Node i _ l c := n in Node i p l c.
Definition set_is_leaf (l : bool) (n : t) : t :=
  let 'Node i p _ c := n in Node i p l c.
Definition set_children (c : list (ascii * t)) (n : t) : t :=
  let 'Node i p l _ := n in Node i p l c.

(** [RadixNode(root=..., prefix=p, is_leaf=l)] allocated at identity [i]. *)
Definition new (i : nat) (p : string) (l : bool) : t := Node i p l [].

(** The loop of [match_prefix]: the value of [i] when the loop ends. *)
Fixpoint match_loop (i : nat) (p w : string) : nat :=
  match p, w with
  | String a p', String b w' =>
      if Ascii.eqb a b then match_loop (S i) p' w' else i
  | _, _ => i
  end.

Definition match_prefix (self : t) (word : string) : string * string * string :=
  let i := match_loop 0 (prefix self) word in
  (PyStr.slice_to i (prefix self), PyStr.slice_from i (prefix self),
   PyStr.slice_from i word).

(** [add]: the node after the call, the next free identity, and how the
    call ended.  The node is returned also when the call raises, with
    the updates made before the exception. *)
Fixpoint add (fuel : nat) (self : t) (word : string)
    (is_repeating_prefix : bool) (fresh : nat) : t * nat * outcome unit :=
  match fuel with
  | O => (self, fresh, NoFuel)
  | S fuel =>
    if bool_decide (prefix self = word) && negb (is_leaf self)
       && negb is_repeating_prefix
    then (set_is_leaf true self, fresh, Return tt)
    else
      match word with
      | EmptyString => (self, fresh, Raise IndexError)
      | String w0 _ =>
        match PyDict.get w0 (children self) with
        | None =>
            (set_children
               (PyDict.setitem w0 (Node fresh word true []) (children self))
               self,
             S fresh, Return tt)
        | Some child =>
          let '(matching, remaining_prefix, remaining_word) :=
            match_prefix child word in
          match remaining_prefix with
          | EmptyString =>
            match remaining_word with
            | EmptyString =>
                let '(child', fresh', r) := add fuel child matching false fresh in
                (set_children (PyDict.setitem w0 child' (children self)) self,
                 fresh', r)
            | String r0 _ =>
              match matching with
              | EmptyString => (self, fresh, Raise IndexError)
              | String m0 _ =>
                  let '(child', fresh', r) :=
                    add fuel child remaining_word (Ascii.eqb r0 m0) fresh in
                  (set_children (PyDict.setitem w0 child' (children self)) self,
                   fresh', r)
              end
            end
          | String p0 _ =>
            match matching with
            | EmptyString => (self, fresh, Raise IndexError)
            | String m0 _ =>
              match PyDict.get m0 (children self) with
              | None => (self, fresh, Raise KeyError)
              | Some child =>
                let aux_node := set_prefix remaining_prefix child in
                let child := Node fresh matching false [(p0, aux_node)] in
                match remaining_word with
                | EmptyString =>
                    (set_children
                       (PyDict.setitem m0 (set_is_leaf true child) (children self))
                       self,
                     S fresh, Return tt)
                | String _ _ =>
                    let '(child', fresh', r) :=
                      add fuel child remaining_word false (S fresh) in
                    (set_children (PyDict.setitem m0 child' (children self)) self,
                     fresh', r)
                end
              end
            end
          end
        end
      end
  end.

(** The [for child in children] loop of [find]; [rec] is the call
    [child.find(remaining_word, loop)]. *)
Fixpoint explore (rec : t → string → cache → outcome Z * cache)
    (word : string) (candidates : list (option t)) (result : Z)
    (memo : cache) : outcome Z * cache :=
  match candidates with
  | [] => (Return result, memo)
  | None :: _ => (Raise AssertionError, memo)
  | Some child :: rest =>
    let '(_, remaining_prefix, remaining_word) := match_prefix child word in
    match remaining_prefix with
    | EmptyString =>
      match remaining_word with
      | EmptyString =>
          explore rec word rest
            (result + (if is_leaf child then 1 else 0)) memo
      | String _ _ =>
        match rec child remaining_word memo with
        | (Return v, memo') => explore rec word rest (result + v) memo'
        | (Raise e, memo') => (Raise e, memo')
        | (NoFuel, memo') => (NoFuel, memo')
        end
      end
    | String _ _ => explore rec word rest result memo
    end
  end.

(** The body of [find] as the source writes it.  [find'] stands for the
    name [find] the body calls on [self.root] and on [child]: the
    decorated method. *)
Definition find_body
    (find' : t → string → call_args → cache → outcome Z * cache)
    (root self : t) (word : string) (loop : bool) (memo : cache)
    : outcome Z * cache :=
  match word with
  | EmptyString => (Raise IndexError, memo)
  | String w0 _ =>
    match PyDict.get w0 (children self) with
    | None =>
        if negb (is_leaf self) then (Return 0, memo)
        else find' root word (Positional loop) memo
    | Some child =>
        let candidates :=
          Some child ::
          (if is_leaf self && loop
           then [PyDict.get w0 (children root)] else []) in
        explore (λ c w m, find' c w (Positional loop) m) word candidates 0 memo
    end
  end.

(** [@cache]: a stored answer is returned without running the body; the
    body's answer is stored when it returns, and nothing is stored when it
    raises. *)
Definition cached (key : nat * string * call_args)
    (body : cache → outcome Z * cache) (memo : cache) : outcome Z * cache :=
  match memo !! key with
  | Some v => (Return v, memo)
  | None =>
    match body memo with
    | (Return v, memo') => (Return v, <[key := v]> memo')
    | other => other
    end
  end.

(** [find], the decorated method. *)
Fixpoint find (fuel : nat) (root self : t) (word : string)
    (args : call_args) (memo : cache) : outcome Z * cache :=
  match fuel with
  | O => (NoFuel, memo)
  | S fuel =>
      cached (nid self, word, args)
        (find_body (find fuel root) root self word (loop_of args)) memo
  end.

(** The longest chain of children below a node. *)
Fixpoint height (n : t) : nat :=
  let 'Node _ _ _ cs := n in
  (fix go (cs : list (ascii * t)) : nat :=
     match cs with
     | [] => O
     | (_, c) :: cs' => Nat.max (S (height c)) (go cs')
     end) cs.

End RadixNode.

(** ** class RadixTrie *)

Module RadixTrie.

(** A [RadixTrie] object with the two pieces of interpreter state its
    methods use: the next free object identity and the cache of
    [RadixNode.find]. *)
Record t : Type := Trie {
  root : RadixNode.t;
  fresh : nat;
  memo : cache;
}.

(** [RadixTrie()] in a program that has not called [find] yet. *)
Definition init : t := Trie (RadixNode.new 0 "" false) 1 ∅.

(** [add]: the recursion of [RadixNode.add] descends one child per call
    and, after a split, makes one more call on the node it has just
    created, so [height + 2] calls are enough. *)
Definition add (self : t) (word : string) : t * outcome unit :=
  let '(root', fresh', r) :=
    RadixNode.add (S (S (RadixNode.height (root self)))) (root self) word
      false (fresh self) in
  (Trie root' fresh' (memo self), r).

Fixpoint add_many (self : t) (words : list string) : t * outcome unit :=
  match words with
  | [] => (self, Return tt)
  | word :: words' =>
    match add self word with
    | (self', Return _) => add_many self' words'
    | stopped => stopped
    end
  end.

Definition positive (r : outcome Z * cache) : outcome bool :=
  match r.1 with
  | Return v => Return (0 <? v)
  | Raise e => Raise e
  | NoFuel => NoFuel
  end.

Definition with_memo (self : t) (m : cache) : t :=
  Trie (root self) (fresh self) m.

Definition is_word (fuel : nat) (self : t) (word : string) : t * outcome bool :=
  let r := RadixNode.find fuel (root self) (root self) word OnlyWord (memo self) in
  (with_memo self r.2, positive r).

Definition is_sentence (fuel : nat) (self : t) (string : string) : t * outcome bool :=
  let r := RadixNode.find fuel (root self) (root self) string (Keyword true) (memo self) in
  (with_memo self r.2, positive r).

Definition possible_sentences (fuel : nat) (self : t) (string : string) : t * outcome Z :=
  let r := RadixNode.find fuel (root self) (root self) string (Keyword true) (memo self) in
  (with_memo self r.2, r.1).

Fixpoint _count_nodes (node : RadixNode.t) : Z :=
  let 'RadixNode.Node _ _ _ cs := node in
  (fix sum (cs : list (ascii * RadixNode.t)) : Z :=
     match cs with
     | [] => 0
     | (_, c) :: cs' => _count_nodes c + sum cs'
     end) cs + 1.

Definition size (self : t) : Z := _count_nodes (root self).

(** The states a program reaches from a new trie by calls of [add]. *)
Inductive reachable : t → Prop :=
| reachable_init : reachable init
| reachable_add (s : t) (word : string) :
    reachable s → reachable (add s word).1.

End RadixTrie.

(** The trie after [RadixTrie().add_many(words)]. *)
Definition built (words : list string) : RadixTrie.t :=
  (RadixTrie.add_many RadixTrie.init words).1.

(** [[t.is_word(w) for w in words]]: one query after the other, on the
    same cache. *)
Fixpoint is_word_each (fuel : nat) (t : RadixTrie.t) (words : list string)
    : list (outcome bool) :=
  match words with
  | [] => []
  | w :: words' =>
      let r := RadixTrie.is_word fuel t w in
      r.2 :: is_word_each fuel r.1 words'
  end.

(** ** The structure [add] maintains

    Below a well-keyed node every dictionary key is used once and is the
    first character of its child's prefix, which is therefore not empty. *)

Definition starts_with (k : ascii) (p : string) : Prop :=
  ∃ rest, p = String k rest.

Fixpoint well_keyed (n : RadixNode.t) : Prop :=
  let 'RadixNode.Node _ _ _ cs := n in
  NoDup (PyDict.keys cs) ∧
  (fix all (cs : list (ascii * RadixNode.t)) : Prop :=
     match cs with
     | [] => True
     | (k, c) :: cs' =>
         (starts_with k (RadixNode.prefix c) ∧ well_keyed c) ∧ all cs'
     end) cs.

(** The same, node by node.  [below d n]: [d] is a child of [n] or of a
    node below [n]. *)
Inductive below : RadixNode.t → RadixNode.t → Prop :=
| below_child (k : ascii) (c n : RadixNode.t) :
    (k, c) ∈ RadixNode.children n → below c n
| below_deeper (k : ascii) (c d n : RadixNode.t) :
    (k, c) ∈ RadixNode.children n → below d c → below d n.

Definition keyed_by_first_char (n : RadixNode.t) : Prop :=
  NoDup (PyDict.keys (RadixNode.children n)) ∧
  ∀ (k : ascii) (c : RadixNode.t),
    (k, c) ∈ RadixNode.children n → starts_with k (RadixNode.prefix c).

Definition structural_invariant (s : RadixTrie.t) : Prop :=
  RadixNode.prefix (RadixTrie.root s) = "" ∧
  keyed_by_first_char (RadixTrie.root s) ∧
  ∀ n : RadixNode.t,
    below n (RadixTrie.root s) →
    RadixNode.prefix n ≠ "" ∧ keyed_by_first_char n.

Definition child_ok (kc : ascii * RadixNode.t) : Prop :=
  starts_with kc.1 (RadixNode.prefix kc.2) ∧ well_keyed kc.2.

(** The three results of [match_prefix], by recursion on the two strings. *)
Fixpoint split_common (p w : string) : string * string * string :=
  match p, w with
  | String a p', String b w' =>
      if Ascii.eqb a b
      then let '(m, rp, rw) := split_common p' w' in (String a m, rp, rw)
      else (EmptyString, p, w)
  | _, _ => (EmptyString, p, w)
  end.

(** The identities of the nodes of a tree, the node itself first. *)
Fixpoint node_ids (n : RadixNode.t) : list nat :=
  let 'RadixNode.Node i _ _ cs := n in
  i :: (fix below_ids (cs : list (ascii * RadixNode.t)) : list nat :=
          match cs with
          | [] => []
          | (_, c) :: cs' => (node_ids c ++ below_ids cs')%list
          end) cs.

(** Induction on a radix tree: a property that holds of a node whenever it
    holds of all its children holds of every node. *)
Fixpoint radix_node_ind (P : RadixNode.t → Prop)
    (step : ∀ i p l cs, Forall (λ kc, P kc.2) cs → P (RadixNode.Node i p l cs))
    (n : RadixNode.t) : P n :=
  match n with
  | RadixNode.Node i p l cs =>
      step i p l cs
        ((fix all (cs : list (ascii * RadixNode.t))
            : Forall (λ kc, P kc.2) cs :=
            match cs with
            | [] => List.Forall_nil _
            | (k, c) :: cs' =>
                @List.Forall_cons _ (λ kc, P kc.2) (k, c) cs'
                  (radix_node_ind P step c) (all cs')
            end) cs)
  end.

(** ** [print_trie]: the lines written to the standard output *)

Module Printing.





End Printing.

(** [spells n x]: below [n] there is a chain of children whose prefixes,
    one after the other, make [x], and the last of them is a leaf; the
    empty chain counts when [n] itself is a leaf. *)
Inductive spells : RadixNode.t → string → Prop :=
| spells_here (n : RadixNode.t) :
    RadixNode.is_leaf n = true → spells n ""
| spells_child (n : RadixNode.t) (k : ascii) (c : RadixNode.t) (x : string) :
    PyDict.get k (RadixNode.children n) = Some c →
    spells c x → spells n (RadixNode.prefix c ++ x).

(** [find] without the decorator: the body calls itself and no answer is
    stored.  The cache argument of the body is passed through untouched. *)
Fixpoint find_plain (fuel : nat) (root self : RadixNode.t) (word : string)
    (loop : bool) : outcome Z :=
  match fuel with
  | O => NoFuel
  | S fuel =>
      (RadixNode.find_body
         (λ n w a m, (find_plain fuel root n w (loop_of a), m))
         root self word loop ∅).1
  end.

(** [n] is the root of the tree or a node below it. *)
Definition in_tree (n root : RadixNode.t) : Prop := n = root ∨ below n root.

(** Every stored answer is the one the body computes on this tree. *)
Definition sound (root : RadixNode.t) (memo : cache) : Prop :=
  ∀ (n : RadixNode.t) (w : string) (a : call_args) (v : Z),
    in_tree n root → memo !! (RadixNode.nid n, w, a) = Some v →
    ∃ fuel : nat, find_plain fuel root n w (loop_of a) = Return v.

(** The states of a program that builds a trie by calls of [add] and from
    then on only queries it. *)
Inductive frozen : RadixTrie.t → Prop :=
| frozen_built (s : RadixTrie.t) : RadixTrie.reachable s → frozen s
| frozen_is_word (fuel : nat) (s : RadixTrie.t) (word : string) :
    frozen s → frozen (RadixTrie.is_word fuel s word).1
| frozen_is_sentence (fuel : nat) (s : RadixTrie.t) (text : string) :
    frozen s → frozen (RadixTrie.is_sentence fuel s text).1
| frozen_possible_sentences (fuel : nat) (s : RadixTrie.t) (text : string) :
    frozen s → frozen (RadixTrie.possible_sentences fuel s text).1.

(** No stored answer of [find] is negative. *)
Definition nonneg (memo : cache) : Prop :=
  ∀ key v, memo !! key = Some v → 0 ≤ v.

(** The states of a program that makes a trie and then calls [add] and the
    three queries in any order. *)
Inductive running : RadixTrie.t → Prop :=
| running_init : running RadixTrie.init
| running_add (s : RadixTrie.t) (word : string) :
    running s → running (RadixTrie.add s word).1
| running_is_word (fuel : nat) (s : RadixTrie.t) (word : string) :
    running s → running (RadixTrie.is_word fuel s word).1
| running_is_sentence (fuel : nat) (s : RadixTrie.t) (text : string) :
    running s → running (RadixTrie.is_sentence fuel s text).1
| running_possible_sentences (fuel : nat) (s : RadixTrie.t) (text : string) :
    running s → running (RadixTrie.possible_sentences fuel s text).1.

(** ** class TrieNode and class Trie: the trie without compression

    The methods of [Trie] walk the tree one character at a time.  Nothing
    in them depends on the identity of a node, so the nodes carry none. *)

Module TrieNode.

#[local] Set Warnings "-register-all".

Inductive t : Type :=
| Node (prefix : string) (is_leaf : bool) (children : list (ascii * t)).

Definition prefix (n : t) : string := let 'Node p _ _ := n in p.
Definition is_leaf (n : t) : bool := let 'Node _ l _ := n in l.
Definition children (n : t) : list (ascii * t) := let 'Node _ _ c := n in c.

Definition set_is_leaf (l : bool) (n : t) : t :=
  let 'Node p _ c := n in Node p l c.
Definition set_children (c : list (ascii * t)) (n : t) : t :=
  let 'Node p l _ := n in Node p l c.

(** [TrieNode(char)] *)
Definition new (char : ascii) : t := Node (String char EmptyString) false [].

End TrieNode.

Module Trie.

Record t : Type := Make { root : TrieNode.t }.

(** [Trie()] *)
Definition init : t := Make (TrieNode.Node "" false []).

(** The loop of [add], started at [node] with [word] left: the node after
    the loop.  [node.children[char]] is the child found by the membership
    test or the [TrieNode(char)] stored just before; the loop goes on in
    it, and the last node reached is marked. *)
Fixpoint add_loop (node : TrieNode.t) (word : string) : TrieNode.t :=
  match word with
  | EmptyString => TrieNode.set_is_leaf true node
  | String char rest =>
      let child :=
        match PyDict.get char (TrieNode.children node) with
        | Some child => child
        | None => TrieNode.new char
        end in
      TrieNode.set_children
        (PyDict.setitem char (add_loop child rest) (TrieNode.children node))
        node
  end.

Definition add (self : t) (word : string) : t :=
  Make (add_loop (root self) word).

Fixpoint add_many (self : t) (words : list string) : t :=
  match words with
  | [] => self
  | word :: words' => add_many (add self word) words'
  end.

(** The loop of [is_word], at [node] with [word] left. *)
Fixpoint is_word_loop (node : TrieNode.t) (word : string) : bool :=
  match word with
  | EmptyString => TrieNode.is_leaf node
  | String char rest =>
      match PyDict.get char (TrieNode.children node) with
      | None => false
      | Some child => is_word_loop child rest
      end
  end.

Definition is_word (self : t) (word : string) : bool :=
  is_word_loop (root self) word.

(** The loop of [is_sentence], at [node] with [sentence] left.  The call
    [self.is_sentence(sentence[i+1:])] is the same loop started at the
    root on what is left after the current character. *)
Fixpoint is_sentence_loop (root node : TrieNode.t) (sentence : string) : bool :=
  match sentence with
  | EmptyString => TrieNode.is_leaf node
  | String char rest =>
      match PyDict.get char (TrieNode.children node) with
      | None => false
      | Some child =>
          if TrieNode.is_leaf child
          then if is_sentence_loop root root rest then true
               else is_sentence_loop root child rest
          else is_sentence_loop root child rest
      end
  end.

Definition is_sentence (self : t) (sentence : string) : bool :=
  is_sentence_loop (root self) (root self) sentence.

(** The loop of [starts_with]. *)
Fixpoint starts_with_loop (node : TrieNode.t) (prefix : string) : bool :=
  match prefix with
  | EmptyString => true
  | String char rest =>
      match PyDict.get char (TrieNode.children node) with
      | None => false
      | Some child => starts_with_loop child rest
      end
  end.

Definition starts_with (self : t) (prefix : string) : bool :=
  starts_with_loop (root self) prefix.

(** [child is not {}] compares a node with a new dictionary by identity and
    is always true: every child is counted. *)
Fixpoint _count_nodes (node : TrieNode.t) : Z :=
  let 'TrieNode.Node _ _ cs := node in
  1 + (fix sum (cs : list (ascii * TrieNode.t)) : Z :=
         match cs with
         | [] => 0
         | (_, c) :: cs' => _count_nodes c + sum cs'
         end) cs.

Definition size (self : t) : Z := _count_nodes (root self).

End Trie.

(** A text is segmented by a trie when it is one of its words or a
    non-empty word of it followed by a segmented text. *)
Inductive segmented (t : Trie.t) : string → Prop :=
| segmented_word (w : string) :
    Trie.is_word t w = true → segmented t w
| segmented_more (w s : string) :
    w ≠ "" → Trie.is_word t w = true → segmented t s → segmented t (w ++ s).

(** [p] is the beginning of [w]. *)
Definition begins (p w : string) : Prop := ∃ s, w = p ++ s.

(** Every path that leaves the node leads on to a marked node. *)
Definition fruitful (node : TrieNode.t) : Prop :=
  ∀ p, p ≠ "" → Trie.starts_with_loop node p = true →
       ∃ s, Trie.is_word_loop node (p ++ s) = true.

(** * Lemmas *)

Section StringFacts.

Lemma ascii_eqb_true a b : Ascii.eqb a b = true ↔ a = b.
Proof. apply Ascii.eqb_eq. Qed.

Lemma ascii_eqb_false a b : Ascii.eqb a b = false ↔ a ≠ b.
Proof. apply Ascii.eqb_neq. Qed.

Lemma match_loop_shift i p w :
  RadixNode.match_loop i p w = (i + RadixNode.match_loop 0 p w)%nat.
Proof.
  revert i w. induction p as [|a p IH]; intros i [|b w]; simpl; try lia.
  destruct (Ascii.eqb a b); [|lia].
  rewrite (IH (S i)), (IH 1%nat). lia.
Qed.

Lemma match_prefix_split self word :
  RadixNode.match_prefix self word = split_common (RadixNode.prefix self) word.
Proof.
  unfold RadixNode.match_prefix. cbv zeta.
  generalize (RadixNode.prefix self) as p. intros p. revert word.
  induction p as [|a p IH]; intros [|b w]; simpl; try reflexivity.
  destruct (Ascii.eqb a b); [|reflexivity].
  rewrite match_loop_shift. simpl. rewrite <- IH. reflexivity.
Qed.

(** Where the two remainders are both non-empty they start differently. *)
Lemma split_common_heads p w m p0 rp r0 rw :
  split_common p w = (m, String p0 rp, String r0 rw) → p0 ≠ r0.
Proof.
  revert w m. induction p as [|a p IH]; intros [|b w] m; simpl; try congruence.
  destruct (Ascii.eqb a b) eqn:E.
  - destruct (split_common p w) as [[m' rp'] rw'] eqn:S.
    intros [= _ -> ->]. eauto.
  - intros [= _ -> _ -> _]. by apply ascii_eqb_false.
Qed.

(** A common first character is matched. *)
Lemma split_common_first k p w m rp rw :
  split_common (String k p) (String k w) = (m, rp, rw) → starts_with k m.
Proof.
  simpl. rewrite (proj2 (ascii_eqb_true k k) eq_refl).
  destruct (split_common p w) as [[m' rp'] rw']. intros [= <- _ _]. by eexists.
Qed.

(** The matched part and the remainder make up the prefix again. *)
Lemma split_common_prefix p w m rp rw :
  split_common p w = (m, rp, rw) → p = m ++ rp ∧ w = m ++ rw.
Proof.
  revert w m. induction p as [|a p IH]; intros [|b w] m; simpl;
    try (intros [= <- <- <-]; done).
  destruct (Ascii.eqb a b) eqn:E.
  - destruct (split_common p w) as [[m' rp'] rw'] eqn:S.
    intros [= <- <- <-]. apply ascii_eqb_true in E as ->.
    destruct (IH _ _ S) as [-> ->]. done.
  - intros [= <- <- <-]. done.
Qed.

End StringFacts.

Section DictFacts.
Context {V : Type}.
Implicit Types (d : list (ascii * V)) (k : ascii) (v : V).

Lemma get_Some_elem k d v : PyDict.get k d = Some v → (k, v) ∈ d.
Proof.
  induction d as [|[k' v'] d IH]; simpl; [done|].
  destruct (Ascii.eqb k k') eqn:E.
  - apply ascii_eqb_true in E as ->. intros [= ->]. left.
  - intros H. right. auto.
Qed.

Lemma get_None_keys k d : PyDict.get k d = None → k ∉ PyDict.keys d.
Proof.
  induction d as [|[k' v'] d IH]; simpl; [intros _; apply not_elem_of_nil|].
  destruct (Ascii.eqb k k') eqn:E; [done|].
  apply ascii_eqb_false in E. intros H. apply not_elem_of_cons. auto.
Qed.

Lemma setitem_absent k v d :
  PyDict.get k d = None → PyDict.setitem k v d = (d ++ [(k, v)])%list.
Proof.
  induction d as [|[k' v'] d IH]; simpl; [done|].
  destruct (Ascii.eqb k k'); [done|]. intros H. by rewrite IH.
Qed.

Lemma keys_setitem_present k v d :
  is_Some (PyDict.get k d) → PyDict.keys (PyDict.setitem k v d) = PyDict.keys d.
Proof.
  induction d as [|[k' v'] d IH]; simpl; [by intros [? ?]|].
  destruct (Ascii.eqb k k'); [done|]. intros H. simpl. by rewrite IH.
Qed.

Lemma Forall_setitem (P : ascii * V → Prop) k v d :
  Forall P d → P (k, v) → Forall P (PyDict.setitem k v d).
Proof.
  intros Hd Hv. induction Hd as [|[k' v'] d Hx Hd IH]; simpl.
  - by constructor.
  - destruct (Ascii.eqb k k') eqn:E.
    + apply ascii_eqb_true in E as <-. by constructor.
    + by constructor.
Qed.

Lemma NoDup_keys_setitem k v d :
  NoDup (PyDict.keys d) → NoDup (PyDict.keys (PyDict.setitem k v d)).
Proof.
  intros Hd. destruct (PyDict.get k d) as [v0|] eqn:G.
  - by rewrite keys_setitem_present.
  - rewrite setitem_absent by done. unfold PyDict.keys. rewrite map_app.
    apply NoDup_app. split; [done|]. split; [|apply NoDup_singleton].
    intros x Hx ->%list_elem_of_singleton. by apply get_None_keys in G.
Qed.

End DictFacts.

Section Structure.
Import RadixNode.
#[local] Opaque match_prefix.

Lemma well_keyed_unfold i p l cs :
  well_keyed (Node i p l cs) ↔ NoDup (PyDict.keys cs) ∧ Forall child_ok cs.
Proof.
  simpl. apply and_iff_compat_l.
  induction cs as [|[k c] cs IH]; [by split; [constructor|]|].
  rewrite Forall_cons, <- IH. reflexivity.
Qed.

Lemma well_keyed_get k c i p l cs :
  well_keyed (Node i p l cs) → PyDict.get k cs = Some c → child_ok (k, c).
Proof.
  rewrite well_keyed_unfold. intros [_ Hall] G%get_Some_elem.
  by eapply Forall_forall in Hall; [|done].
Qed.

Lemma well_keyed_setitem k c i p l cs :
  well_keyed (Node i p l cs) → child_ok (k, c) →
  well_keyed (Node i p l (PyDict.setitem k c cs)).
Proof.
  rewrite !well_keyed_unfold. intros [Hk Hall] Hc.
  split; [by apply NoDup_keys_setitem | by apply Forall_setitem].
Qed.

Lemma well_keyed_attrs i p l i' p' l' cs :
  well_keyed (Node i p l cs) → well_keyed (Node i' p' l' cs).
Proof. by rewrite !well_keyed_unfold. Qed.

(** [add] keeps a well-keyed node well keyed and never changes the
    prefix of the node it is called on, however the call ends. *)
Lemma add_well_keyed fuel :
  ∀ self word rep fr self' fr' r,
    add fuel self word rep fr = (self', fr', r) →
    well_keyed self → well_keyed self' ∧ prefix self' = prefix self.
Proof.
  induction fuel as [|fuel IH]; intros [i p l cs] word rep fr self' fr' r Hadd H;
    simpl in Hadd.
  { by injection Hadd as <- _ _. }
  destruct (_ && _ && _).
  { injection Hadd as <- _ _. split; [by eapply well_keyed_attrs|done]. }
  destruct word as [|w0 w]; [by injection Hadd as <- _ _|].
  destruct (PyDict.get w0 cs) as [child|] eqn:G; cycle 1.
  { injection Hadd as <- _ _. split; [|done].
    apply well_keyed_setitem; [done|]. split; [by eexists|].
    apply well_keyed_unfold. split; [apply NoDup_nil_2|constructor]. }
  destruct (well_keyed_get _ _ _ _ _ _ H G) as [[rest Hpre] Hchild].
  simpl in Hpre. rewrite match_prefix_split, Hpre in Hadd.
  destruct (split_common _ _) as [[m rp] rw] eqn:SC.
  destruct (split_common_first _ _ _ _ _ _ SC) as [m' ->].
  destruct rp as [|p0 rp].
  - assert (∀ w' rep' c' f' r', add fuel child w' rep' fr = (c', f', r') →
              well_keyed (Node i p l (PyDict.setitem w0 c' cs))) as Hrec.
    { intros w' rep' c' f' r' A. destruct (IH _ _ _ _ _ _ _ A Hchild) as [Hc' Hp'].
      apply well_keyed_setitem; [done|]. split; [|done].
      simpl. rewrite Hp', Hpre. by eexists. }
    destruct rw as [|r0 rw].
    + destruct (add fuel child _ false fr) as [[c' f'] r'] eqn:A.
      injection Hadd as <- _ _. eauto.
    + destruct (add fuel child _ _ fr) as [[c' f'] r'] eqn:A.
      injection Hadd as <- _ _. eauto.
  - rewrite G in Hadd.
    set (aux := set_prefix (String p0 rp) child) in *.
    assert (well_keyed aux) as Haux.
    { subst aux. destruct child. by eapply well_keyed_attrs. }
    assert (∀ l', well_keyed (Node fr (String w0 m') l' [(p0, aux)])) as Hnew.
    { intros l'. apply well_keyed_unfold. split.
      - apply NoDup_singleton.
      - constructor; [|constructor]. split; [|done].
        subst aux. destruct child. by eexists. }
    destruct rw as [|r0 rw].
    + injection Hadd as <- _ _. split; [|done].
      apply well_keyed_setitem; [done|]. split; [by eexists|apply Hnew].
    + destruct (add fuel _ _ false (S fr)) as [[c' f'] r'] eqn:A.
      injection Hadd as <- _ _. split; [|done].
      destruct (IH _ _ _ _ _ _ _ A (Hnew false)) as [Hc' Hp'].
      apply well_keyed_setitem; [done|]. split; [|done].
      simpl. rewrite Hp'. by eexists.
Qed.

Lemma well_keyed_keyed n : well_keyed n → keyed_by_first_char n.
Proof.
  destruct n as [i p l cs]. rewrite well_keyed_unfold. intros [Hk Hall].
  split; [done|]. intros k c Hin. simpl in Hin.
  by eapply Forall_forall in Hall as [? _]; [|done].
Qed.

Lemma well_keyed_child k c n :
  well_keyed n → (k, c) ∈ children n → well_keyed c ∧ prefix c ≠ "".
Proof.
  destruct n as [i p l cs]. rewrite well_keyed_unfold. intros [_ Hall] Hin.
  simpl in Hin. eapply Forall_forall in Hall as [[rest Hp] Hc]; [|done].
  simpl in Hp. split; [done|]. by rewrite Hp.
Qed.

Lemma well_keyed_below d n :
  below d n → well_keyed n → well_keyed d ∧ prefix d ≠ "".
Proof.
  induction 1 as [k c n Hin|k c d n Hin _ IH]; intros Hn.
  - by eapply well_keyed_child.
  - apply IH. by eapply well_keyed_child.
Qed.

Lemma well_keyed_invariant (s : RadixTrie.t) :
  prefix (RadixTrie.root s) = "" → well_keyed (RadixTrie.root s) →
  structural_invariant s.
Proof.
  intros Hp Hk. split; [done|]. split; [by apply well_keyed_keyed|].
  intros n Hn. destruct (well_keyed_below _ _ Hn Hk) as [Hk' Hp'].
  split; [done|by apply well_keyed_keyed].
Qed.

End Structure.

Section Termination.
Import RadixNode.
#[local] Opaque match_prefix.

Lemma height_get k c i p l cs :
  PyDict.get k cs = Some c → (height c < height (Node i p l cs))%nat.
Proof.
  simpl. induction cs as [|[k' c'] cs IH]; simpl; [done|].
  destruct (Ascii.eqb k k'); [intros [= ->]; lia|].
  intros H%IH. lia.
Qed.

(** The call made after a split: the new node has one child, and the
    word that is left starts with another character. *)
Lemma add_after_split fuel i m l p0 aux r0 rw rep fr :
  p0 ≠ r0 →
  (add (S fuel) (Node i m l [(p0, aux)]) (String r0 rw) rep fr).2 = Return tt.
Proof.
  intros Hne. simpl. destruct (_ && _ && _); [done|].
  destruct (Ascii.eqb r0 p0) eqn:E; [|done].
  by apply ascii_eqb_true in E.
Qed.

(** [add] returns or raises once the fuel exceeds the height by two. *)
Lemma add_terminates fuel :
  ∀ self word rep fr,
    (height self + 2 ≤ fuel)%nat → (add fuel self word rep fr).2 ≠ NoFuel.
Proof.
  induction fuel as [|fuel IH]; intros [i p l cs] word rep fr Hh; [lia|].
  simpl. destruct (_ && _ && _); [done|].
  destruct word as [|w0 w]; [done|].
  destruct (PyDict.get w0 cs) as [child|] eqn:G; [|done].
  pose proof (height_get _ _ i p l _ G) as Hc.
  rewrite match_prefix_split.
  destruct (split_common _ _) as [[m rp] rw] eqn:SC.
  destruct rp as [|p0 rp].
  - destruct rw as [|r0 rw].
    + specialize (IH child m false fr).
      destruct (add fuel child m false fr) as [[c' f'] r']. simpl in *.
      apply IH. lia.
    + destruct m as [|m0 m]; [done|].
      specialize (IH child (String r0 rw) (Ascii.eqb r0 m0) fr).
      destruct (add fuel child _ _ fr) as [[c' f'] r']. simpl in *.
      apply IH. lia.
  - destruct m as [|m0 m]; [done|].
    destruct (PyDict.get m0 cs) as [child2|]; [|done].
    destruct rw as [|r0 rw]; [done|].
    destruct fuel as [|fuel]; [lia|].
    pose proof (add_after_split fuel fr (String m0 m) false p0
                  (set_prefix (String p0 rp) child2) r0 rw false (S fr)
                  (split_common_heads _ _ _ _ _ _ _ SC)) as Hs.
    destruct (add (S fuel) _ _ false (S fr)) as [[c' f'] r'].
    simpl in *. by rewrite Hs.
Qed.

(** Below a well-keyed node the subscripts and the two assertions of [add]
    never fail: a non-empty word is added and the call returns. *)
Lemma add_returns fuel :
  ∀ self w0 w rep fr,
    well_keyed self → (height self + 2 ≤ fuel)%nat →
    (add fuel self (String w0 w) rep fr).2 = Return tt.
Proof.
  induction fuel as [|fuel IH]; intros [i p l cs] w0 w rep fr Hk Hh; [lia|].
  simpl. destruct (_ && _ && _); [done|].
  destruct (PyDict.get w0 cs) as [child|] eqn:G; [|done].
  pose proof (height_get _ _ i p l _ G) as Hc.
  destruct (well_keyed_get _ _ _ _ _ _ Hk G) as [[rest Hpre] Hchild].
  simpl in Hpre. rewrite match_prefix_split, Hpre.
  destruct (split_common _ _) as [[m rp] rw] eqn:SC.
  destruct (split_common_first _ _ _ _ _ _ SC) as [m' ->].
  destruct rp as [|p0 rp].
  - destruct rw as [|r0 rw].
    + specialize (IH child w0 m' false fr Hchild).
      destruct (add fuel child _ false fr) as [[c' f'] r']. simpl in *.
      apply IH. lia.
    + specialize (IH child r0 rw (Ascii.eqb r0 w0) fr Hchild).
      destruct (add fuel child _ _ fr) as [[c' f'] r']. simpl in *.
      apply IH. lia.
  - rewrite G. destruct rw as [|r0 rw]; [done|].
    destruct fuel as [|fuel]; [lia|].
    pose proof (add_after_split fuel fr (String w0 m') false p0
                  (set_prefix (String p0 rp) child) r0 rw false (S fr)
                  (split_common_heads _ _ _ _ _ _ _ SC)) as Hs.
    destruct (add (S fuel) _ _ false (S fr)) as [[c' f'] r']. done.
Qed.

(** More fuel does not change the answer of a call that had enough. *)
Lemma add_fuel_more fuel :
  ∀ fuel' self word rep fr,
    (fuel ≤ fuel')%nat → (add fuel self word rep fr).2 ≠ NoFuel →
    add fuel' self word rep fr = add fuel self word rep fr.
Proof.
  induction fuel as [|fuel IH]; intros fuel' self word rep fr Hle; [done|].
  destruct fuel' as [|fuel']; [lia|].
  assert (fuel ≤ fuel')%nat as Hle' by lia.
  simpl. destruct (_ && _ && _); [done|].
  destruct word as [|w0 w]; [done|].
  destruct (PyDict.get w0 (children self)) as [child|]; [|done].
  destruct (match_prefix child (String w0 w)) as [[m rp] rw].
  destruct rp as [|p0 rp].
  - destruct rw as [|r0 rw].
    + specialize (IH fuel' child m false fr Hle').
      destruct (add fuel child m false fr) as [[c' f'] r'].
      intros Hr. by rewrite IH.
    + destruct m as [|m0 m]; [done|].
      specialize (IH fuel' child (String r0 rw) (Ascii.eqb r0 m0) fr Hle').
      destruct (add fuel child _ _ fr) as [[c' f'] r'].
      intros Hr. by rewrite IH.
  - destruct m as [|m0 m]; [done|].
    destruct (PyDict.get m0 (children self)) as [child2|]; [|done].
    destruct rw as [|r0 rw]; [done|].
    match goal with
    | |- context [add fuel ?n ?w false (S fr)] =>
        specialize (IH fuel' n w false (S fr) Hle');
        destruct (add fuel n w false (S fr)) as [[c' f'] r']
    end.
    intros Hr. by rewrite IH.
Qed.

(** The fuel [RadixTrie.add] passes is enough, and any larger amount
    gives the same trie and the same outcome. *)
Lemma add_fuel_irrelevant (self : RadixTrie.t) word fuel :
  (height (RadixTrie.root self) + 2 ≤ fuel)%nat →
  (RadixTrie.add self word).2 ≠ NoFuel ∧
  add fuel (RadixTrie.root self) word false (RadixTrie.fresh self) =
    ((RadixTrie.root (RadixTrie.add self word).1,
      RadixTrie.fresh (RadixTrie.add self word).1),
     (RadixTrie.add self word).2).
Proof.
  intros Hf.
  pose proof (add_terminates (S (S (height (RadixTrie.root self))))
                (RadixTrie.root self) word false (RadixTrie.fresh self)) as Ht.
  rewrite (add_fuel_more (S (S (height (RadixTrie.root self)))) fuel)
    by (try apply Ht; lia).
  unfold RadixTrie.add.
  destruct (add _ _ _ _ _) as [[r' f'] o]. simpl in *.
  split; [apply Ht; lia|done].
Qed.

(** The recursive form of the invariant holds in every reachable state. *)
Lemma reachable_well_keyed (s : RadixTrie.t) :
  RadixTrie.reachable s →
  prefix (RadixTrie.root s) = "" ∧ well_keyed (RadixTrie.root s).
Proof.
  induction 1 as [|s word Hs [Hp Hk]].
  - split; [reflexivity|]. apply well_keyed_unfold.
    split; [apply NoDup_nil_2|constructor].
  - unfold RadixTrie.add.
    destruct (add _ _ _ _ _) as [[root' fresh'] r] eqn:A. simpl.
    destruct (add_well_keyed _ _ _ _ _ _ _ _ A Hk) as [Hk' Hp'].
    split; [congruence|done].
Qed.

(** How a call of [RadixTrie.add] ends in a reachable state: it returns,
    except that [add("")] on a trie whose root is already a leaf raises
    [IndexError] and changes nothing. *)
Lemma reachable_add_outcome (s : RadixTrie.t) (word : string) :
  RadixTrie.reachable s →
  (RadixTrie.add s word).2 = Return tt ∨
  (word = "" ∧ is_leaf (RadixTrie.root s) = true ∧
   RadixTrie.add s word = (s, Raise IndexError)).
Proof.
  intros [Hp Hk]%reachable_well_keyed. destruct word as [|w0 w].
  - destruct s as [[i p l cs] fr memo]. simpl in *. subst p.
    unfold RadixTrie.add. simpl. destruct l; simpl; [right|left]; done.
  - left. unfold RadixTrie.add.
    pose proof (add_returns (S (S (height (RadixTrie.root s))))
                  (RadixTrie.root s) w0 w false (RadixTrie.fresh s) Hk
                  (Nat.eq_le_incl _ _ (Nat.add_comm _ 2))) as Hr.
    by destruct (add _ _ _ _ _) as [[root' fresh'] r].
Qed.

End Termination.

Section Search.
Import RadixNode.

(** A stored answer is returned without looking at the tree. *)
Lemma find_hit (fuel : nat) (root n : t) (word : string) (args : call_args) (memo : cache) (v : Z) :
  memo !! (nid n, word, args) = Some v →
  find (S fuel) root n word args memo = (Return v, memo).
Proof. intros H. simpl. unfold cached. by rewrite H. Qed.

(** [word[0]] on the empty word. *)
Lemma find_empty_word (fuel : nat) (root n : t) (args : call_args) (memo : cache) :
  memo !! (nid n, "", args) = None →
  find (S fuel) root n "" args memo = (Raise IndexError, memo).
Proof. intros H. simpl. unfold cached. by rewrite H. Qed.

(** The branch [children[0] is None] of the body. *)
Lemma find_body_no_child
    (find' : t → string → call_args → cache → outcome Z * cache)
    (root n : t) (w0 : ascii) (w : string) (loop : bool) (memo : cache) :
  PyDict.get w0 (children n) = None →
  find_body find' root n (String w0 w) loop memo =
    if is_leaf n then find' root (String w0 w) (Positional loop) memo
    else (Return 0, memo).
Proof. intros Hc. unfold find_body. rewrite Hc. by destruct (is_leaf n). Qed.

(** The same branch, seen through the cache. *)
Lemma find_no_child (fuel : nat) (root n : t) (w0 : ascii) (w : string) (args : call_args) (memo : cache) :
  memo !! (nid n, String w0 w, args) = None →
  PyDict.get w0 (children n) = None →
  find (S fuel) root n (String w0 w) args memo =
    if is_leaf n then
      match find fuel root root (String w0 w) (Positional (loop_of args)) memo with
      | (Return v, memo') => (Return v, <[(nid n, String w0 w, args) := v]> memo')
      | other => other
      end
    else (Return 0, <[(nid n, String w0 w, args) := 0]> memo).
Proof.
  intros Hm Hc. simpl. unfold cached. rewrite Hm, find_body_no_child by done.
  destruct (is_leaf n); [|done].
  by destruct (find fuel root root _ _ memo) as [[v|e|] memo'].
Qed.

(** A leaf root without a child for the first character calls itself
    with the same word: no amount of fuel is enough. *)
Lemma find_leaf_root_loops (fuel : nat) :
  ∀ (root : t) (w0 : ascii) (w : string) (args : call_args) (memo : cache),
    is_leaf root = true →
    PyDict.get w0 (children root) = None →
    (∀ a : call_args, memo !! (nid root, String w0 w, a) = None) →
    find fuel root root (String w0 w) args memo = (NoFuel, memo).
Proof.
  induction fuel as [|fuel IH]; intros root w0 w args memo Hl Hc Hm; [done|].
  rewrite find_no_child, Hl by done. by rewrite IH.
Qed.

End Search.

(** * The stated properties *)

(** C1. After [add("a")], [add("aa")], [add("aaa")] on a new trie,
    [is_word] answers [True] for "a", "aa" and "aaa" -- and also for "aaaa"
    and "aaaaa", which were never added: at the last node the word that is
    left keys no child, the node is a leaf, and [find] starts again at the
    root although [loop] is [False].  The answers are the same when each
    query starts from an empty cache and when the five share one. *)
Theorem repeating_prefix_is_word :
  (RadixTrie.add_many RadixTrie.init ["a"; "aa"; "aaa"]).2 = Return tt ∧
  RadixTrie.root (built ["a"; "aa"; "aaa"]) =
    RadixNode.Node 0 "" false
      [("a"%char, RadixNode.Node 1 "a" true
         [("a"%char, RadixNode.Node 2 "a" true
            [("a"%char, RadixNode.Node 3 "a" true [])])])] ∧
  ∀ k : nat,
    (RadixTrie.is_word (6 + k) (built ["a"; "aa"; "aaa"]) "a").2 = Return true ∧
    (RadixTrie.is_word (6 + k) (built ["a"; "aa"; "aaa"]) "aa").2 = Return true ∧
    (RadixTrie.is_word (6 + k) (built ["a"; "aa"; "aaa"]) "aaa").2 = Return true ∧
    (RadixTrie.is_word (6 + k) (built ["a"; "aa"; "aaa"]) "aaaa").2 = Return true ∧
    (RadixTrie.is_word (6 + k) (built ["a"; "aa"; "aaa"]) "aaaaa").2 = Return true ∧
    is_word_each (6 + k) (built ["a"; "aa"; "aaa"])
      ["a"; "aa"; "aaa"; "aaaa"; "aaaaa"]
    = [Return true; Return true; Return true; Return true; Return true].
Proof.
  split; [vm_compute; reflexivity|]. split; [vm_compute; reflexivity|].
  intros k. split_and!; vm_compute; reflexivity.
Qed.

(** C2. A second [add] of the same word right after the first is not a
    no-op.  On a new trie the second [add("a")] hangs a new node "a" under
    the node "a", and [size()] goes from 2 to 3.  With "ab" stored, the
    second [add("abcd")] hangs a new node "cd" under the node "cd":
    [size()] goes from 3 to 4, and [is_word("abcdcd")] from [False] to
    [True]. *)
Theorem add_twice_grows :
  (RadixTrie.add_many RadixTrie.init ["a"; "a"]).2 = Return tt ∧
  RadixTrie.size (built ["a"]) = 2 ∧
  RadixTrie.size (built ["a"; "a"]) = 3 ∧
  RadixTrie.root (built ["a"; "a"]) =
    RadixNode.Node 0 "" false
      [("a"%char, RadixNode.Node 1 "a" true
         [("a"%char, RadixNode.Node 2 "a" true [])])] ∧
  (RadixTrie.add_many RadixTrie.init ["ab"; "abcd"; "abcd"]).2 = Return tt ∧
  RadixTrie.size (built ["ab"; "abcd"]) = 3 ∧
  RadixTrie.size (built ["ab"; "abcd"; "abcd"]) = 4 ∧
  ∀ k : nat,
    (RadixTrie.is_word (4 + k) (built ["ab"; "abcd"]) "abcdcd").2
      = Return false ∧
    (RadixTrie.is_word (4 + k) (built ["ab"; "abcd"; "abcd"]) "abcdcd").2
      = Return true.
Proof.
  split_and!; try (vm_compute; reflexivity).
  intros k. split; vm_compute; reflexivity.
Qed.

(** C3. After [add("")] the root is a leaf without children, and a query
    for "x" calls [root.find("x", loop)] from itself for ever: with any
    amount of fuel, [is_word], [is_sentence] and [possible_sentences] do
    not return. *)
Theorem find_recursion_unbounded :
  (RadixTrie.add RadixTrie.init "").2 = Return tt ∧
  RadixNode.is_leaf (RadixTrie.root (built [""])) = true ∧
  ∀ fuel : nat,
    (RadixTrie.is_word fuel (built [""]) "x").2 = NoFuel ∧
    (RadixTrie.is_sentence fuel (built [""]) "x").2 = NoFuel ∧
    (RadixTrie.possible_sentences fuel (built [""]) "x").2 = NoFuel.
Proof.
  split; [vm_compute; reflexivity|]. split; [vm_compute; reflexivity|]. intros fuel.
  unfold RadixTrie.is_word, RadixTrie.is_sentence, RadixTrie.possible_sentences,
    RadixTrie.positive.
  assert (RadixTrie.memo (built [""]) = ∅) as -> by (vm_compute; reflexivity).
  rewrite !find_leaf_root_loops; [done | first [intros a; apply lookup_empty
                                            | vm_compute; reflexivity] ..].
Qed.

(** C4. With the words "ab" and "abc" stored, [possible_sentences("abc")]
    and [is_sentence("abc")] raise [AssertionError]: at the leaf "ab" the
    child "c" exists, so the wrap candidate [root.children.get("c")] is
    appended, and it is [None]. *)
Theorem wrap_candidate_is_None :
  (RadixTrie.add_many RadixTrie.init ["ab"; "abc"]).2 = Return tt ∧
  ∀ k : nat,
    (RadixTrie.possible_sentences (2 + k) (built ["ab"; "abc"]) "abc").2
      = Raise AssertionError ∧
    (RadixTrie.is_sentence (2 + k) (built ["ab"; "abc"]) "abc").2
      = Raise AssertionError.
Proof.
  split; [vm_compute; reflexivity|]. intros k. split; vm_compute; reflexivity.
Qed.

(** C5. [find("", loop)] does not return 1 or 0: at every node, with
    nothing cached, it raises [IndexError] at [word[0]], whatever the leaf
    mark says.  So do [is_word("")], [is_sentence("")] and
    [possible_sentences("")], on a new trie and after [add("")] has marked
    the root as a leaf. *)
Theorem find_empty_word_raises :
  (∀ (fuel : nat) (root n : RadixNode.t) (args : call_args),
     RadixNode.find (S fuel) root n "" args ∅ = (Raise IndexError, ∅)) ∧
  RadixNode.is_leaf (RadixTrie.root RadixTrie.init) = false ∧
  RadixNode.is_leaf (RadixTrie.root (built [""])) = true ∧
  ∀ (k : nat) (trie : RadixTrie.t),
    trie ∈ [RadixTrie.init; built [""]] →
    (RadixTrie.is_word (1 + k) trie "").2 = Raise IndexError ∧
    (RadixTrie.is_sentence (1 + k) trie "").2 = Raise IndexError ∧
    (RadixTrie.possible_sentences (1 + k) trie "").2 = Raise IndexError.
Proof.
  split; [|split; [|split]]; [|reflexivity|vm_compute; reflexivity|].
  - intros fuel root n args. apply find_empty_word, lookup_empty.
  - intros k trie Hin.
    assert (RadixTrie.memo trie = ∅) as Hm.
    { apply elem_of_cons in Hin as [->|Hin]; [reflexivity|].
      apply list_elem_of_singleton in Hin as ->. vm_compute; reflexivity. }
    unfold RadixTrie.is_word, RadixTrie.is_sentence,
      RadixTrie.possible_sentences, RadixTrie.positive.
    rewrite Hm. simpl Nat.add. by rewrite !find_empty_word by apply lookup_empty.
Qed.

Lemma find_empty_word_raises_witness :
  (RadixTrie.is_word 1 (built [""]) "").2 = Raise IndexError.
Proof.
  apply (proj2 (proj2 (proj2 find_empty_word_raises)) 0%nat (built [""])).
  apply elem_of_cons. right. apply list_elem_of_singleton. reflexivity.
Defined.

(** C6. At a node without a child for the first character of a non-empty
    word, the body of [find] returns what [root.find(word, loop)] returns
    when the node is a leaf, and 0 otherwise; the [loop] flag is passed on
    and not looked at.  Through the cache, a call that is not stored gives
    the same answer and stores it.  With the words "a" and "b" stored,
    [is_word("ab")] reaches the leaf "a" with "b" left, takes this branch,
    and answers [True]. *)
Theorem find_restarts_at_root :
  (∀ (find' : RadixNode.t → string → call_args → cache → outcome Z * cache)
     (root n : RadixNode.t) (w0 : ascii) (w : string) (loop : bool)
     (memo : cache),
     PyDict.get w0 (RadixNode.children n) = None →
     RadixNode.find_body find' root n (String w0 w) loop memo =
       if RadixNode.is_leaf n
       then find' root (String w0 w) (Positional loop) memo
       else (Return 0, memo)) ∧
  (∀ (fuel : nat) (root n : RadixNode.t) (w0 : ascii) (w : string)
     (args : call_args) (memo : cache),
     memo !! (RadixNode.nid n, String w0 w, args) = None →
     PyDict.get w0 (RadixNode.children n) = None →
     RadixNode.find (S fuel) root n (String w0 w) args memo =
       if RadixNode.is_leaf n then
         match RadixNode.find fuel root root (String w0 w)
                 (Positional (loop_of args)) memo with
         | (Return v, memo') =>
             (Return v, <[(RadixNode.nid n, String w0 w, args) := v]> memo')
         | other => other
         end
       else (Return 0, <[(RadixNode.nid n, String w0 w, args) := 0]> memo)) ∧
  (RadixTrie.add_many RadixTrie.init ["a"; "b"]).2 = Return tt ∧
  ∃ a : RadixNode.t,
    PyDict.get "a"%char (RadixNode.children (RadixTrie.root (built ["a"; "b"])))
      = Some a ∧
    RadixNode.match_prefix a "ab" = ("a", "", "b") ∧
    RadixNode.is_leaf a = true ∧
    PyDict.get "b"%char (RadixNode.children a) = None ∧
    ∀ k : nat,
      (RadixNode.find (1 + k) (RadixTrie.root (built ["a"; "b"]))
         (RadixTrie.root (built ["a"; "b"])) "b" (Positional false) ∅).1
        = Return 1 ∧
      (RadixNode.find (2 + k) (RadixTrie.root (built ["a"; "b"])) a "b"
         (Positional false) ∅).1 = Return 1 ∧
      (RadixTrie.is_word (3 + k) (built ["a"; "b"]) "ab").2 = Return true.
Proof.
  split; [apply find_body_no_child|]. split; [apply find_no_child|].
  split; [vm_compute; reflexivity|].
  exists (RadixNode.Node 1 "a" true []).
  split_and!; try (vm_compute; reflexivity).
  intros k. split_and!; vm_compute; reflexivity.
Qed.

Lemma find_restarts_at_root_witness :
  RadixNode.find_body (RadixNode.find 1 (RadixTrie.root (built ["a"; "b"])))
    (RadixTrie.root (built ["a"; "b"])) (RadixNode.Node 1 "a" true []) "b"
    false ∅ =
  RadixNode.find 1 (RadixTrie.root (built ["a"; "b"]))
    (RadixTrie.root (built ["a"; "b"])) "b" (Positional false) ∅ ∧
  RadixNode.find 2 (RadixTrie.root (built ["a"; "b"]))
    (RadixNode.Node 1 "a" true []) "b" (Positional false) ∅ =
  match RadixNode.find 1 (RadixTrie.root (built ["a"; "b"]))
          (RadixTrie.root (built ["a"; "b"])) "b" (Positional false) ∅ with
  | (Return v, memo') => (Return v, <[(1%nat, "b", Positional false) := v]> memo')
  | other => other
  end.
Proof.
  split.
  - apply (proj1 find_restarts_at_root
             (RadixNode.find 1 (RadixTrie.root (built ["a"; "b"])))
             (RadixTrie.root (built ["a"; "b"]))
             (RadixNode.Node 1 "a" true []) "b"%char "" false ∅).
    reflexivity.
  - apply (proj1 (proj2 find_restarts_at_root) 1%nat
             (RadixTrie.root (built ["a"; "b"]))
             (RadixNode.Node 1 "a" true []) "b"%char "" (Positional false) ∅).
    + apply lookup_empty.
    + reflexivity.
Defined.

(** C7. After adding "a", "ab" and "b" to a new trie,
    [possible_sentences("ab")] returns 2 and [is_sentence("ab")] returns
    [True], also when it is asked after [possible_sentences("ab")] and is
    answered from the cache. *)
Theorem two_sentences_for_ab :
  (RadixTrie.add_many RadixTrie.init ["a"; "ab"; "b"]).2 = Return tt ∧
  RadixTrie.root (built ["a"; "ab"; "b"]) =
    RadixNode.Node 0 "" false
      [("a"%char, RadixNode.Node 1 "a" true
         [("b"%char, RadixNode.Node 2 "b" true [])]);
       ("b"%char, RadixNode.Node 3 "b" true [])] ∧
  ∀ k : nat,
    (RadixTrie.possible_sentences (2 + k) (built ["a"; "ab"; "b"]) "ab").2
      = Return 2 ∧
    (RadixTrie.is_sentence (2 + k) (built ["a"; "ab"; "b"]) "ab").2
      = Return true ∧
    (RadixTrie.is_sentence (2 + k)
       (RadixTrie.possible_sentences (2 + k) (built ["a"; "ab"; "b"]) "ab").1
       "ab").2
      = Return true.
Proof.
  split; [vm_compute; reflexivity|]. split; [vm_compute; reflexivity|].
  intros k. split_and!; vm_compute; reflexivity.
Qed.

(** C8. [add] leaves the cache of [find] as it is, and a cached answer is
    returned without looking at the tree.  So answers go stale: on a new
    trie [is_word("a")] is [False]; after [add("a")] the same query is
    still [False], where the tree alone gives [True].  With "a" and "b"
    stored, [possible_sentences("ab")] is 1; after [add("ab")] the same
    query still returns 1, where the tree alone gives 2. *)
Theorem cache_outlives_add :
  (∀ (s : RadixTrie.t) (word : string),
     RadixTrie.memo (RadixTrie.add s word).1 = RadixTrie.memo s) ∧
  (∀ (fuel : nat) (root n : RadixNode.t) (word : string) (args : call_args)
     (memo : cache) (v : Z),
     RadixNode.find (S fuel) root n word args
       (<[(RadixNode.nid n, word, args) := v]> memo)
     = (Return v, <[(RadixNode.nid n, word, args) := v]> memo)) ∧
  (∀ k : nat,
     let queried := (RadixTrie.is_word (1 + k) RadixTrie.init "a").1 in
     (RadixTrie.is_word (1 + k) RadixTrie.init "a").2 = Return false ∧
     (RadixTrie.add queried "a").2 = Return tt ∧
     (RadixTrie.is_word (1 + k) (RadixTrie.add queried "a").1 "a").2
       = Return false ∧
     (RadixTrie.is_word (1 + k)
        (RadixTrie.with_memo (RadixTrie.add queried "a").1 ∅) "a").2
       = Return true) ∧
  (∀ k : nat,
     let queried :=
       (RadixTrie.possible_sentences (3 + k) (built ["a"; "b"]) "ab").1 in
     (RadixTrie.possible_sentences (3 + k) (built ["a"; "b"]) "ab").2
       = Return 1 ∧
     (RadixTrie.add queried "ab").2 = Return tt ∧
     RadixTrie.root (RadixTrie.add queried "ab").1
       = RadixTrie.root (built ["a"; "b"; "ab"]) ∧
     (RadixTrie.possible_sentences (1 + k) (RadixTrie.add queried "ab").1 "ab").2
       = Return 1 ∧
     (RadixTrie.possible_sentences (3 + k)
        (RadixTrie.with_memo (RadixTrie.add queried "ab").1 ∅) "ab").2
       = Return 2).
Proof.
  split; [|split; [|split]].
  - intros s word. unfold RadixTrie.add.
    by destruct (RadixNode.add _ _ _ _ _) as [[root' fresh'] r].
  - intros fuel root n word args memo v. apply find_hit, lookup_insert_eq.
  - intros k. cbv zeta. split_and!; vm_compute; reflexivity.
  - intros k. cbv zeta. split_and!; vm_compute; reflexivity.
Qed.

(** C9. The order of insertion changes the recognised words.  The two
    distinct words "abc" and "abab" added in this order leave a leaf "ab",
    and [is_word("ab")] is [True]; added in the other order they leave
    "ab" unmarked, and [is_word("ab")] is [False]. *)
Theorem insertion_order_matters :
  NoDup ["abc"; "abab"] ∧
  ["abc"; "abab"] ≡ₚ ["abab"; "abc"] ∧
  (RadixTrie.add_many RadixTrie.init ["abc"; "abab"]).2 = Return tt ∧
  (RadixTrie.add_many RadixTrie.init ["abab"; "abc"]).2 = Return tt ∧
  RadixTrie.root (built ["abc"; "abab"]) =
    RadixNode.Node 0 "" false
      [("a"%char, RadixNode.Node 2 "ab" true
         [("c"%char, RadixNode.Node 1 "c" true [])])] ∧
  RadixTrie.root (built ["abab"; "abc"]) =
    RadixNode.Node 0 "" false
      [("a"%char, RadixNode.Node 2 "ab" false
         [("a"%char, RadixNode.Node 1 "ab" true []);
          ("c"%char, RadixNode.Node 3 "c" true [])])] ∧
  ∀ k : nat,
    (RadixTrie.is_word (1 + k) (built ["abc"; "abab"]) "ab").2 = Return true ∧
    (RadixTrie.is_word (1 + k) (built ["abab"; "abc"]) "ab").2 = Return false.
Proof.
  split; [|split].
  - apply NoDup_cons. split; [|apply NoDup_singleton].
    intros H%list_elem_of_singleton. discriminate H.
  - apply Permutation_swap.
  - split_and!; try (vm_compute; reflexivity).
    intros k. split; vm_compute; reflexivity.
Qed.

(** C10. In every state reached from a new trie by calls of [add], the
    root's prefix is empty, and at the root and at every node below it each
    key of [children] is used once and is the first character of its
    child's prefix; every node below the root has a non-empty prefix.  A
    further call of [add] returns, except that [add("")] raises
    [IndexError] and changes nothing once the root is a leaf. *)
Theorem add_keeps_structure :
  ∀ s : RadixTrie.t,
    RadixTrie.reachable s →
    structural_invariant s ∧
    ∀ word : string,
      (RadixTrie.add s word).2 = Return tt ∨
      (word = "" ∧ RadixNode.is_leaf (RadixTrie.root s) = true ∧
       RadixTrie.add s word = (s, Raise IndexError)).
Proof.
  intros s Hs. split.
  - apply reachable_well_keyed in Hs as [Hp Hk]. by apply well_keyed_invariant.
  - intros word. by apply reachable_add_outcome.
Qed.

Lemma add_keeps_structure_witness :
  structural_invariant
    (RadixTrie.add (RadixTrie.add RadixTrie.init "test").1 "team").1.
Proof.
  apply add_keeps_structure. do 2 apply RadixTrie.reachable_add.
  apply RadixTrie.reachable_init.
Defined.

(** * Further properties of the code *)

Section DictUpdates.
Context {V : Type}.
Implicit Types (d : list (ascii * V)) (k : ascii) (v : V).

Lemma get_setitem_eq k v d : PyDict.get k (PyDict.setitem k v d) = Some v.
Proof.
  induction d as [|[k' v'] d IH]; simpl.
  - by rewrite (proj2 (ascii_eqb_true k k) eq_refl).
  - destruct (Ascii.eqb k k') eqn:E; simpl; by rewrite E.
Qed.

Lemma get_setitem_ne k k' v d :
  k ≠ k' → PyDict.get k' (PyDict.setitem k v d) = PyDict.get k' d.
Proof.
  intros Hne. induction d as [|[k0 v0] d IH]; simpl.
  - by rewrite (proj2 (ascii_eqb_false k' k)).
  - destruct (Ascii.eqb k k0) eqn:E; simpl; [|by rewrite IH].
    apply ascii_eqb_true in E as <-. by rewrite (proj2 (ascii_eqb_false k' k)).
Qed.

Lemma setitem_setitem k v v' d :
  PyDict.setitem k v (PyDict.setitem k v' d) = PyDict.setitem k v d.
Proof.
  induction d as [|[k0 v0] d IH]; simpl.
  - by rewrite (proj2 (ascii_eqb_true k k) eq_refl).
  - destruct (Ascii.eqb k k0) eqn:E; simpl; rewrite E; [done|by rewrite IH].
Qed.

End DictUpdates.

Section PlainTrie.
Import TrieNode Trie.

Lemma is_word_loop_new c x : is_word_loop (new c) x = false.
Proof. by destruct x. Qed.

Lemma string_cons_eq (c : ascii) (r rest : string) :
  bool_decide (String c r = String c rest) = bool_decide (r = rest).
Proof. apply bool_decide_ext. split; [by intros [= ->]|by intros ->]. Qed.

(** What the loop of [add] does to the loop of [is_word]. *)
Lemma is_word_loop_add w :
  ∀ node x,
    is_word_loop (add_loop node w) x = bool_decide (x = w) || is_word_loop node x.
Proof.
  induction w as [|c rest IH]; intros [p l cs] [|d r]; simpl; try done.
  destruct (decide (c = d)) as [->|Hne].
  - rewrite get_setitem_eq, IH, string_cons_eq.
    destruct (PyDict.get d cs); [done|]. by rewrite is_word_loop_new.
  - rewrite get_setitem_ne by done.
    rewrite bool_decide_eq_false_2; [done|]. by intros [= -> _].
Qed.

Lemma add_loop_twice w :
  ∀ node, add_loop (add_loop node w) w = add_loop node w.
Proof.
  induction w as [|c rest IH]; intros [p l cs]; simpl; [done|].
  by rewrite get_setitem_eq, IH, setitem_setitem.
Qed.

End PlainTrie.

Section PlainTrieWords.
Import TrieNode Trie.

Lemma is_word_add (t : Trie.t) (w x : string) :
  is_word (add t w) x = bool_decide (x = w) || is_word t x.
Proof. apply is_word_loop_add. Qed.

Lemma is_word_add_many (words : list string) :
  ∀ (t : Trie.t) (x : string),
    is_word (add_many t words) x = true ↔ x ∈ words ∨ is_word t x = true.
Proof.
  induction words as [|w words IH]; intros t x; simpl.
  - split; [by right|]. intros [H|H]; [by apply elem_of_nil in H|done].
  - rewrite IH, is_word_add, orb_true_iff, bool_decide_eq_true, elem_of_cons.
    tauto.
Qed.

Lemma is_word_init (x : string) : is_word init x = false.
Proof. by destruct x. Qed.

Lemma is_word_built (words : list string) (x : string) :
  is_word (add_many init words) x = true ↔ x ∈ words.
Proof.
  rewrite is_word_add_many, is_word_init. split; [by intros [H|H]|by left].
Qed.

(** The loop of [is_sentence], one word at a time. *)
Lemma is_sentence_loop_unroll (root : TrieNode.t) (s : string) :
  ∀ node,
    is_sentence_loop root node s = true ↔
    is_word_loop node s = true ∨
    ∃ s1 s2, s = s1 ++ s2 ∧ s1 ≠ "" ∧ is_word_loop node s1 = true ∧
             is_sentence_loop root root s2 = true.
Proof.
  induction s as [|c rest IH]; intros node; simpl.
  - split; [by left|]. intros [H|(s1 & s2 & Hs & Hne & _)]; [done|].
    by destruct s1.
  - destruct (PyDict.get c (children node)) as [child|] eqn:G.
    + assert (is_sentence_loop root child rest = true ∨
              (is_leaf child = true ∧ is_sentence_loop root root rest = true) ↔
              is_word_loop child rest = true ∨
              ∃ s1 s2, String c rest = s1 ++ s2 ∧ s1 ≠ "" ∧
                       is_word_loop node s1 = true ∧
                       is_sentence_loop root root s2 = true) as Hmain.
      { rewrite IH. split.
        - intros [[H|(s1 & s2 & -> & Hne & Hw & Hs)]|[Hl Hs]].
          + by left.
          + right. exists (String c s1), s2. simpl. by rewrite G.
          + right. exists (String c ""), rest. simpl. by rewrite G.
        - intros [H|(s1 & s2 & Hs & Hne & Hw & Hs2)]; [by left; left|].
          destruct s1 as [|c' s1]; [done|]. simpl in Hs, Hw.
          injection Hs as <- ->. rewrite G in Hw.
          destruct s1 as [|c'' s1].
          + right. by split.
          + left. right. exists (String c'' s1), s2. by split. }
      rewrite <- Hmain.
      destruct (is_leaf child), (is_sentence_loop root root rest),
        (is_sentence_loop root child rest); simpl; intuition congruence.
    + split; [done|]. intros [H|(s1 & s2 & Hs & Hne & Hw & _)]; [done|].
      destruct s1 as [|c' s1]; [done|]. simpl in Hs, Hw.
      injection Hs as <- _. by rewrite G in Hw.
Qed.

Lemma length_app_string (a b : string) :
  String.length (a ++ b) = (String.length a + String.length b)%nat.
Proof. induction a as [|c a IH]; simpl; [done|by rewrite IH]. Qed.

Lemma is_sentence_segmented (t : Trie.t) (s : string) :
  is_sentence t s = true ↔ segmented t s.
Proof.
  split.
  - remember (String.length s) as n eqn:Hn. revert s Hn.
    induction n as [n IH] using lt_wf_ind. intros s -> H.
    apply is_sentence_loop_unroll in H as [H|(s1 & s2 & -> & Hne & Hw & Hs)].
    + by apply segmented_word.
    + apply segmented_more; [done..|].
      apply (IH (String.length s2)); [|done..].
      rewrite length_app_string. destruct s1; [done|simpl; lia].
  - induction 1 as [w Hw|w s Hne Hw _ IH];
      apply is_sentence_loop_unroll; [by left|].
    right. by exists w, s.
Qed.

End PlainTrieWords.

Section DictSums.
Context {V : Type} (f : V → Z).
Implicit Types (d : list (ascii * V)) (k : ascii) (v : V).

(** The sum of [f] over the values, after [d[k] = v]. *)
Lemma sum_setitem k v d :
  foldr (λ kc acc, f kc.2 + acc) 0 (PyDict.setitem k v d) =
  foldr (λ kc acc, f kc.2 + acc) 0 d + f v
  - match PyDict.get k d with Some old => f old | None => 0 end.
Proof.
  induction d as [|[k' v'] d IH]; simpl; [lia|].
  destruct (Ascii.eqb k k'); simpl; lia.
Qed.

End DictSums.

Section PlainTrieShape.
Import TrieNode Trie.

Lemma count_nodes_unfold p l cs :
  _count_nodes (Node p l cs) =
  1 + foldr (λ kc acc, _count_nodes kc.2 + acc) 0 cs.
Proof.
  simpl. f_equal. induction cs as [|[k c] cs IH]; simpl; congruence.
Qed.

Lemma count_add_loop w :
  ∀ node,
    _count_nodes node ≤ _count_nodes (add_loop node w)
      ≤ _count_nodes node + Z.of_nat (String.length w).
Proof.
  induction w as [|c rest IH]; intros [p l cs].
  - change (add_loop (Node p l cs) "") with (Node p true cs).
    rewrite !count_nodes_unfold. simpl. lia.
  - change (add_loop (Node p l cs) (String c rest)) with
      (Node p l (PyDict.setitem c
         (add_loop (match PyDict.get c cs with
                    | Some child => child | None => new c end) rest) cs)).
    rewrite !count_nodes_unfold, sum_setitem.
    destruct (PyDict.get c cs) as [child|].
    + specialize (IH child). simpl String.length. lia.
    + specialize (IH (new c)).
      change (_count_nodes (new c)) with 1 in IH. simpl String.length. lia.
Qed.

Lemma count_add_loop_known w :
  ∀ node,
    starts_with_loop node w = true →
    _count_nodes (add_loop node w) = _count_nodes node.
Proof.
  induction w as [|c rest IH]; intros [p l cs] H.
  - change (add_loop (Node p l cs) "") with (Node p true cs).
    by rewrite !count_nodes_unfold.
  - change (add_loop (Node p l cs) (String c rest)) with
      (Node p l (PyDict.setitem c
         (add_loop (match PyDict.get c cs with
                    | Some child => child | None => new c end) rest) cs)).
    rewrite !count_nodes_unfold, sum_setitem. simpl in H.
    destruct (PyDict.get c cs) as [child|]; [|done].
    rewrite (IH child H). lia.
Qed.

Lemma starts_with_loop_app p :
  ∀ node s, is_word_loop node (p ++ s) = true → starts_with_loop node p = true.
Proof.
  induction p as [|c p IH]; intros node s; simpl; [done|].
  destruct (PyDict.get c (children node)); [apply IH|done].
Qed.

Lemma fruitful_add_loop w :
  ∀ node, fruitful node → fruitful (add_loop node w).
Proof.
  induction w as [|c rest IH]; intros [pr l cs] Hn [|d q] Hne; try done; simpl.
  { intros H. by apply (Hn (String d q)). }
  destruct (decide (c = d)) as [->|Hcd].
  - rewrite get_setitem_eq. intros H.
    destruct q as [|e q].
    + exists rest. simpl. rewrite is_word_loop_add.
      by rewrite bool_decide_eq_true_2.
    + revert H. apply IH; [|done].
      destruct (PyDict.get d cs) as [child|] eqn:G.
      * intros p' Hp' H'. destruct (Hn (String d p')) as [s Hs]; [done|..].
        { simpl. by rewrite G. }
        exists s. simpl in Hs. by rewrite G in Hs.
      * intros [|e' p'] Hp' H'; done.
  - rewrite get_setitem_ne by done. intros H.
    destruct (Hn (String d q)) as [s Hs]; [done..|]. by exists s.
Qed.

Lemma fruitful_add_many words :
  ∀ t : Trie.t, fruitful (root t) → fruitful (root (add_many t words)).
Proof.
  induction words as [|w words IH]; intros t H; simpl; [done|].
  apply IH. by apply fruitful_add_loop.
Qed.

End PlainTrieShape.

(** ** class Trie *)

(** X1. [Trie.add(w)] makes [w] a word and changes no other answer of
    [is_word]: afterwards [is_word(x)] is true exactly for [x = w] and for
    the [x] that were words before. *)
Theorem trie_is_word_after_add (t : Trie.t) (w x : string) :
  Trie.is_word (Trie.add t w) x = true ↔ x = w ∨ Trie.is_word t x = true.
Proof. by rewrite is_word_add, orb_true_iff, bool_decide_eq_true. Qed.

(** X2. After [Trie().add_many(words)], [is_word(x)] is true exactly for
    the [x] in [words]; the empty string is a word only if it was added. *)
Theorem trie_words_are_those_added (words : list string) (x : string) :
  Trie.is_word (Trie.add_many Trie.init words) x = true ↔ x ∈ words.
Proof. apply is_word_built. Qed.

(** X3. The answers of [Trie.is_word] after [add_many] depend on the set
    of added words only: two lists with the same elements, in any order and
    with any repetitions, give the same answers from the same start. *)
Theorem trie_order_irrelevant (t : Trie.t) (words words' : list string) :
  (∀ w, w ∈ words ↔ w ∈ words') →
  ∀ x, Trie.is_word (Trie.add_many t words) x
       = Trie.is_word (Trie.add_many t words') x.
Proof.
  intros Hsame x. apply eq_true_iff_eq. rewrite !is_word_add_many, Hsame. done.
Qed.

Lemma trie_order_irrelevant_witness :
  Trie.is_word (Trie.add_many Trie.init ["ab"; "a"]) "a"
  = Trie.is_word (Trie.add_many Trie.init ["a"; "ab"; "a"]) "a".
Proof.
  apply (trie_order_irrelevant Trie.init ["ab"; "a"] ["a"; "ab"; "a"]).
  intros w. rewrite !elem_of_cons, !elem_of_nil. tauto.
Defined.

(** X4. A second [Trie.add] of the same word changes nothing: the trie is
    the same tree as after the first. *)
Theorem trie_add_idempotent (t : Trie.t) (w : string) :
  Trie.add (Trie.add t w) w = Trie.add t w.
Proof. unfold Trie.add. simpl. by rewrite add_loop_twice. Qed.

(** X5. [Trie.is_sentence(s)] is true exactly when [s] is a word of the
    trie or a non-empty word of it followed by a text that is segmented in
    the same way; for the empty text this is the mark of the root. *)
Theorem trie_is_sentence_segmented (t : Trie.t) (s : string) :
  (Trie.is_sentence t s = true ↔ segmented t s) ∧
  Trie.is_sentence t "" = Trie.is_word t "".
Proof. split; [apply is_sentence_segmented|done]. Qed.

(** X6. After [Trie().add_many(words)], [starts_with(p)] is true exactly
    when [p] is empty or is the beginning of one of the added words. *)
Theorem trie_starts_with_built (words : list string) (p : string) :
  Trie.starts_with (Trie.add_many Trie.init words) p = true ↔
  p = "" ∨ ∃ w, w ∈ words ∧ begins p w.
Proof.
  split.
  - intros H. destruct p as [|c p]; [by left|right].
    destruct (fruitful_add_many words Trie.init) with (p := String c p)
      as [s Hs]; [|done..|].
    { intros [|d q] Hq Hst; done. }
    exists (String c p ++ s). split; [|by exists s].
    by apply is_word_built.
  - intros [->|(w & Hw & s & ->)]; [done|].
    apply is_word_built in Hw. by eapply starts_with_loop_app.
Qed.

(** X7. [Trie.add(w)] never removes a node and creates at most [len(w)]
    nodes; it creates none when [starts_with(w)] was already true. *)
Theorem trie_size_after_add (t : Trie.t) (w : string) :
  (Trie.size t ≤ Trie.size (Trie.add t w)
     ≤ Trie.size t + Z.of_nat (String.length w)) ∧
  (Trie.starts_with t w = true → Trie.size (Trie.add t w) = Trie.size t).
Proof.
  split; [apply count_add_loop|apply count_add_loop_known].
Qed.

Lemma trie_size_after_add_witness :
  Trie.size (Trie.add (Trie.add Trie.init "tea") "te")
  = Trie.size (Trie.add Trie.init "tea").
Proof.
  apply (proj2 (trie_size_after_add (Trie.add Trie.init "tea") "te")).
  reflexivity.
Defined.

(** ** class RadixNode and class RadixTrie *)

Section RadixShape.
Import RadixNode.
#[local] Opaque match_prefix.

Lemma radix_count_unfold i p l cs :
  RadixTrie._count_nodes (Node i p l cs) =
  foldr (λ kc acc, RadixTrie._count_nodes kc.2 + acc) 0 cs + 1.
Proof.
  simpl. f_equal. induction cs as [|[k c] cs IH]; simpl; congruence.
Qed.

Lemma add_after_split_alloc fuel i m l p0 aux r0 rw rep fr :
  p0 ≠ r0 →
  ((add fuel (Node i m l [(p0, aux)]) (String r0 rw) rep fr).1.2 ≤ S fr)%nat.
Proof.
  intros Hne. destruct fuel as [|fuel]; simpl; [lia|].
  destruct (_ && _ && _); simpl; [lia|].
  destruct (Ascii.eqb r0 p0) eqn:E; simpl; [|lia].
  by apply ascii_eqb_true in E.
Qed.

(** One call of [add] creates at most two nodes, and the tree grows by
    the nodes it creates. *)
Lemma add_count fuel :
  ∀ self word rep fr self' fr' r,
    add fuel self word rep fr = (self', fr', r) →
    (fr ≤ fr' ≤ fr + 2)%nat ∧
    RadixTrie._count_nodes self' =
      RadixTrie._count_nodes self + Z.of_nat (fr' - fr).
Proof.
  induction fuel as [|fuel IH]; intros [i p l cs] word rep fr self' fr' r Hadd;
    simpl in Hadd.
  { injection Hadd as <- <- _. rewrite Nat.sub_diag. split; lia. }
  destruct (_ && _ && _).
  { injection Hadd as <- <- _. rewrite !radix_count_unfold, Nat.sub_diag.
    split; lia. }
  destruct word as [|w0 w].
  { injection Hadd as <- <- _. rewrite Nat.sub_diag. split; lia. }
  destruct (PyDict.get w0 cs) as [child|] eqn:G; cycle 1.
  { injection Hadd as <- <- _. rewrite !radix_count_unfold, sum_setitem, G.
    change (RadixTrie._count_nodes (Node fr (String w0 w) true [])) with 1.
    split; lia. }
  destruct (match_prefix child (String w0 w)) as [[m rp] rw] eqn:MP.
  assert (∀ w' rep' c' f' r',
            add fuel child w' rep' fr = (c', f', r') →
            (fr ≤ f' ≤ fr + 2)%nat ∧
            RadixTrie._count_nodes (Node i p l (PyDict.setitem w0 c' cs)) =
              RadixTrie._count_nodes (Node i p l cs) + Z.of_nat (f' - fr))
    as Hrec.
  { intros w' rep' c' f' r' A. destruct (IH _ _ _ _ _ _ _ A) as [Hf Hc].
    split; [done|]. rewrite !radix_count_unfold, sum_setitem, G. lia. }
  destruct rp as [|p0 rp].
  - destruct rw as [|r0 rw].
    + destruct (add fuel child m false fr) as [[c' f'] r'] eqn:A.
      injection Hadd as <- <- _. eauto.
    + destruct m as [|m0 m].
      { injection Hadd as <- <- _. rewrite Nat.sub_diag. split; lia. }
      destruct (add fuel child _ _ fr) as [[c' f'] r'] eqn:A.
      injection Hadd as <- <- _. eauto.
  - destruct m as [|m0 m].
    { injection Hadd as <- <- _. rewrite Nat.sub_diag. split; lia. }
    destruct (PyDict.get m0 cs) as [child2|] eqn:G2.
    2:{ injection Hadd as <- <- _. rewrite Nat.sub_diag. split; lia. }
    assert (∀ l', RadixTrie._count_nodes
                    (Node fr (String m0 m) l' [(p0, set_prefix (String p0 rp) child2)])
                  = RadixTrie._count_nodes child2 + 1) as Hnew.
    { intros l'. rewrite radix_count_unfold. simpl foldr.
      destruct child2 as [i2 p2 l2 cs2]. simpl set_prefix.
      rewrite !radix_count_unfold. lia. }
    destruct rw as [|r0 rw].
    + injection Hadd as <- <- _. split; [lia|].
      rewrite !radix_count_unfold, sum_setitem, G2.
      change (set_is_leaf true (Node fr (String m0 m) false ?x))
        with (Node fr (String m0 m) true x).
      rewrite Hnew. lia.
    + rewrite match_prefix_split in MP.
      pose proof (add_after_split_alloc fuel fr (String m0 m) false p0
                    (set_prefix (String p0 rp) child2) r0 rw false (S fr)
                    (split_common_heads _ _ _ _ _ _ _ MP)) as Hal.
      destruct (add fuel _ _ false (S fr)) as [[c' f'] r'] eqn:A.
      injection Hadd as <- <- _. simpl in Hal.
      destruct (IH _ _ _ _ _ _ _ A) as [Hf Hc].
      split; [lia|].
      rewrite !radix_count_unfold, sum_setitem, G2, Hc, Hnew. lia.
Qed.

End RadixShape.

Section RadixQueries.
Import RadixNode.
#[local] Opaque match_prefix.

(** A call of [find] that returns has its answer in the cache. *)
Lemma find_stores (fuel : nat) (root n : t) (word : string) (args : call_args)
    (memo memo' : cache) (v : Z) :
  find fuel root n word args memo = (Return v, memo') →
  memo' !! (nid n, word, args) = Some v.
Proof.
  destruct fuel as [|fuel]; simpl; [done|]. unfold cached.
  destruct (memo !! (nid n, word, args)) as [v0|] eqn:Hm.
  - by intros [= <- <-].
  - destruct (find_body _ _ _ _ _ _) as [[v1|e|] m1]; try done.
    intros [= <- <-]. apply lookup_insert_eq.
Qed.

Lemma nonneg_insert (memo : cache) key v :
  nonneg memo → 0 ≤ v → nonneg (<[key := v]> memo).
Proof.
  intros Hm Hv key' v'. destruct (decide (key = key')) as [->|Hne].
  - rewrite lookup_insert_eq. by intros [= <-].
  - rewrite lookup_insert_ne by done. apply Hm.
Qed.

Lemma explore_nonneg (rec : t → string → cache → outcome Z * cache) word :
  (∀ c w (m m' : cache) v,
     rec c w m = (Return v, m') → nonneg m → 0 ≤ v) →
  (∀ c w (m m' : cache) o, rec c w m = (o, m') → nonneg m → nonneg m') →
  ∀ candidates result (memo memo' : cache) o,
    explore rec word candidates result memo = (o, memo') →
    0 ≤ result → nonneg memo →
    nonneg memo' ∧ ∀ v, o = Return v → 0 ≤ v.
Proof.
  intros Hv Hm. induction candidates as [|[child|] rest IH];
    intros result memo memo' o; simpl.
  - intros [= <- <-] Hr Hn. split; [done|]. by intros v [= <-].
  - destruct (match_prefix child word) as [[m rp] rw].
    destruct rp; [|apply IH]. destruct rw.
    + intros H Hr. apply (IH _ _ _ _ H). destruct (is_leaf child); lia.
    + destruct (rec child _ memo) as [[v|e|] m1] eqn:R.
      * intros H Hr Hn. apply (IH _ _ _ _ H).
        -- specialize (Hv _ _ _ _ _ R Hn). lia.
        -- by eapply Hm.
      * intros [= <- <-] Hr Hn. split; [by eapply Hm|done].
      * intros [= <- <-] Hr Hn. split; [by eapply Hm|done].
  - intros [= <- <-] Hr Hn. by split.
Qed.

(** [find] never returns a negative count and never stores one. *)
Lemma find_nonneg (fuel : nat) :
  ∀ (root n : t) (word : string) (args : call_args) (memo memo' : cache) o,
    find fuel root n word args memo = (o, memo') →
    nonneg memo →
    nonneg memo' ∧ ∀ v, o = Return v → 0 ≤ v.
Proof.
  induction fuel as [|fuel IH]; intros root n word args memo memo' o; simpl.
  { intros [= <- <-] Hn. by split. }
  unfold cached. destruct (memo !! (nid n, word, args)) as [v0|] eqn:Hhit.
  { intros [= <- <-] Hn. split; [done|]. intros v [= <-]. by eapply Hn. }
  intros H Hn.
  assert (∀ o1 (m1 : cache),
            find_body (find fuel root) root n word (loop_of args) memo = (o1, m1) →
            nonneg m1 ∧ ∀ v, o1 = Return v → 0 ≤ v) as Hbody.
  { intros o1 m1. unfold find_body. destruct word as [|w0 w].
    { intros [= <- <-]. by split. }
    destruct (PyDict.get w0 (children n)) as [child|].
    - intros E. eapply explore_nonneg in E; [done| | |lia|done].
      + intros c w' m m' v R Hm. by eapply (IH _ _ _ _ _ _ _ R Hm).
      + intros c w' m m' o' R Hm. by eapply (IH _ _ _ _ _ _ _ R Hm).
    - destruct (is_leaf n); simpl.
      + intros R. by eapply IH.
      + intros [= <- <-]. split; [done|]. by intros v [= <-]. }
  destruct (find_body _ _ _ _ _ _) as [[v1|e|] m1] eqn:B;
    destruct (Hbody _ _ eq_refl) as [Hm1 Hv1]; injection H as <- <-.
  - split; [apply nonneg_insert; auto|]. intros v [= <-]. auto.
  - by split.
  - by split.
Qed.

End RadixQueries.

Section RadixFacade.
Import RadixNode.

Lemma running_nonneg (s : RadixTrie.t) : running s → nonneg (RadixTrie.memo s).
Proof.
  induction 1 as [|s word _ IH|fuel s word _ IH|fuel s text _ IH|fuel s text _ IH].
  - intros key v H. simpl in H. by rewrite lookup_empty in H.
  - unfold RadixTrie.add.
    by destruct (add _ _ _ _ _) as [[root' fresh'] r].
  - unfold RadixTrie.is_word. simpl.
    destruct (find fuel _ _ word OnlyWord _) as [o m] eqn:F.
    by eapply find_nonneg.
  - unfold RadixTrie.is_sentence. simpl.
    destruct (find fuel _ _ text (Keyword true) _) as [o m] eqn:F.
    by eapply find_nonneg.
  - unfold RadixTrie.possible_sentences. simpl.
    destruct (find fuel _ _ text (Keyword true) _) as [o m] eqn:F.
    by eapply find_nonneg.
Qed.

Lemma radix_add_many_outcome (words : list string) :
  ∀ s : RadixTrie.t,
    RadixTrie.reachable s →
    RadixTrie.reachable (RadixTrie.add_many s words).1 ∧
    ((RadixTrie.add_many s words).2 = Return tt ∨
     ((RadixTrie.add_many s words).2 = Raise IndexError ∧ "" ∈ words)).
Proof.
  induction words as [|w words IH]; intros s Hs; simpl; [by split; [|left]|].
  destruct (reachable_add_outcome s w Hs) as [Hr|(-> & _ & ->)].
  - pose proof (RadixTrie.reachable_add s w Hs) as Hs'.
    destruct (RadixTrie.add s w) as [s' [[]|e|]]; try done.
    destruct (IH s' Hs') as [Hreach [Hret|[Hraise Hin]]].
    + by split; [|left].
    + split; [done|right]. split; [done|]. by apply elem_of_cons; right.
  - split; [done|right]. split; [done|]. apply elem_of_cons. by left.
Qed.

End RadixFacade.

(** X8. [match_prefix] cuts the node's prefix and the word after their
    longest common beginning: the first result followed by the second is
    the prefix, followed by the third it is the word, and when neither
    remainder is empty they start with different characters. *)
Theorem match_prefix_splits (self : RadixNode.t) (word : string) :
  let '(matching, remaining_prefix, remaining_word) :=
    RadixNode.match_prefix self word in
  RadixNode.prefix self = matching ++ remaining_prefix ∧
  word = matching ++ remaining_word ∧
  match remaining_prefix, remaining_word with
  | String a _, String b _ => a ≠ b
  | _, _ => True
  end.
Proof.
  destruct (RadixNode.match_prefix self word) as [[m rp] rw] eqn:MP.
  rewrite match_prefix_split in MP.
  destruct (split_common_prefix _ _ _ _ _ MP) as [Hp Hw].
  split; [done|]. split; [done|].
  destruct rp as [|a rp]; [done|]. destruct rw as [|b rw]; [done|].
  by eapply split_common_heads.
Qed.

(** X9. [RadixTrie.add] never removes a node and creates at most two;
    [size()] grows by the number of nodes created, whether the call
    returns or raises. *)
Theorem radix_size_after_add (s : RadixTrie.t) (word : string) :
  (RadixTrie.size s ≤ RadixTrie.size (RadixTrie.add s word).1
     ≤ RadixTrie.size s + 2) ∧
  RadixTrie.size (RadixTrie.add s word).1 =
    RadixTrie.size s
    + Z.of_nat (RadixTrie.fresh (RadixTrie.add s word).1 - RadixTrie.fresh s).
Proof.
  unfold RadixTrie.size, RadixTrie.add.
  destruct (RadixNode.add _ _ _ _ _) as [[root' fresh'] r] eqn:A. simpl.
  destruct (add_count _ _ _ _ _ _ _ _ A) as [Hf Hc]. lia.
Qed.

(** X10. In a program that makes a trie and then calls [add] and the
    queries in any order, no query returns a negative count:
    [possible_sentences] returns an integer that is at least 0 whenever it
    returns. *)
Theorem possible_sentences_nonneg (s : RadixTrie.t) :
  running s →
  ∀ (fuel : nat) (text : string) (v : Z),
    (RadixTrie.possible_sentences fuel s text).2 = Return v → 0 ≤ v.
Proof.
  intros Hs%running_nonneg fuel text v. unfold RadixTrie.possible_sentences.
  simpl. destruct (RadixNode.find fuel _ _ text (Keyword true) _) as [o m] eqn:F.
  simpl. by eapply find_nonneg.
Qed.

Lemma possible_sentences_nonneg_witness :
  0 ≤ 2 ∧
  (RadixTrie.possible_sentences 2 (built ["a"; "ab"; "b"]) "ab").2 = Return 2.
Proof.
  assert ((RadixTrie.possible_sentences 2 (built ["a"; "ab"; "b"]) "ab").2
          = Return 2) as H by (vm_compute; reflexivity).
  split; [|exact H].
  apply (possible_sentences_nonneg (built ["a"; "ab"; "b"])) with (2%nat) "ab";
    [|exact H].
  change (built ["a"; "ab"; "b"]) with
    (RadixTrie.add (RadixTrie.add (RadixTrie.add RadixTrie.init "a").1 "ab").1
       "b").1.
  do 3 apply running_add. apply running_init.
Defined.

(** X11. A query that has returned is answered from the cache when it is
    repeated: the same call on the state it left returns the same value,
    with any fuel, and leaves the state as it is. *)
Theorem repeated_query_same_answer
    (fuel fuel' : nat) (s : RadixTrie.t) (text : string) (v : Z) :
  (RadixTrie.possible_sentences fuel s text).2 = Return v →
  RadixTrie.possible_sentences (S fuel')
    (RadixTrie.possible_sentences fuel s text).1 text
  = ((RadixTrie.possible_sentences fuel s text).1, Return v).
Proof.
  unfold RadixTrie.possible_sentences. simpl RadixTrie.root.
  destruct (RadixNode.find fuel _ _ text (Keyword true) (RadixTrie.memo s))
    as [o m] eqn:F.
  cbn [fst snd RadixTrie.memo RadixTrie.with_memo RadixTrie.root RadixTrie.fresh].
  intros ->. apply find_stores in F.
  by rewrite (find_hit fuel' _ _ _ _ _ _ F).
Qed.

Lemma repeated_query_same_answer_witness :
  RadixTrie.possible_sentences 1
    (RadixTrie.possible_sentences 2 (built ["a"; "ab"; "b"]) "ab").1 "ab"
  = ((RadixTrie.possible_sentences 2 (built ["a"; "ab"; "b"]) "ab").1, Return 2).
Proof.
  apply (repeated_query_same_answer 2 0 (built ["a"; "ab"; "b"]) "ab" 2).
  vm_compute; reflexivity.
Defined.

(** X12. [RadixTrie.add_many], called in a state reached by calls of
    [add], ends in such a state; it returns unless the empty string is
    among the words, and the only exception it raises is [IndexError]. *)
Theorem radix_add_many_outcome_reachable (s : RadixTrie.t) (words : list string) :
  RadixTrie.reachable s →
  RadixTrie.reachable (RadixTrie.add_many s words).1 ∧
  ((RadixTrie.add_many s words).2 = Return tt ∨
   ((RadixTrie.add_many s words).2 = Raise IndexError ∧ "" ∈ words)).
Proof. apply radix_add_many_outcome. Qed.

Lemma radix_add_many_outcome_reachable_witness :
  (RadixTrie.add_many RadixTrie.init ["ab"; "abc"]).2 = Return tt.
Proof.
  destruct (radix_add_many_outcome_reachable RadixTrie.init ["ab"; "abc"]
              RadixTrie.reachable_init) as [_ [H|[_ H]]]; [exact H|].
  exfalso. rewrite !elem_of_cons, elem_of_nil in H.
  destruct H as [H|[H|[]]]; discriminate H.
Defined.

Section DictLists.
Context {V A : Type} (f : V → list A).
Implicit Types (d : list (ascii * V)) (k : ascii) (v : V).

(** The values' lists put together, after [d[k] = v]. *)
Lemma flat_setitem k v d :
  (foldr (λ kc acc, f kc.2 ++ acc) [] (PyDict.setitem k v d)
   ++ match PyDict.get k d with Some old => f old | None => [] end
   ≡ₚ foldr (λ kc acc, f kc.2 ++ acc) [] d ++ f v)%list.
Proof.
  induction d as [|[k' v'] d IH]; simpl.
  - by rewrite !app_nil_r.
  - destruct (Ascii.eqb k k'); simpl.
    + solve_Permutation.
    + rewrite <- !(assoc_L (++)%list). by rewrite IH.
Qed.

End DictLists.

Section RadixIds.
Import RadixNode.
#[local] Opaque match_prefix.

Lemma node_ids_unfold i p l cs :
  node_ids (Node i p l cs) =
  i :: foldr (λ kc acc, (node_ids kc.2 ++ acc)%list) [] cs.
Proof.
  simpl. f_equal. induction cs as [|[k c] cs IH]; simpl; congruence.
Qed.

Lemma node_ids_setitem i p l cs k c c' (extra : list nat) :
  PyDict.get k cs = Some c →
  node_ids c' ≡ₚ (node_ids c ++ extra)%list →
  node_ids (Node i p l (PyDict.setitem k c' cs))
  ≡ₚ (node_ids (Node i p l cs) ++ extra)%list.
Proof.
  intros G Hc. rewrite !node_ids_unfold. simpl. constructor.
  pose proof (flat_setitem node_ids k c' cs) as H. rewrite G, Hc in H.
  apply (Permutation_app_inv_r (node_ids c)).
  rewrite H. solve_Permutation.
Qed.

(** The identities after [add]: those before and the ones handed out. *)
Lemma add_ids fuel :
  ∀ self word rep fr self' fr' r,
    add fuel self word rep fr = (self', fr', r) →
    node_ids self' ≡ₚ (node_ids self ++ seq fr (fr' - fr))%list.
Proof.
  induction fuel as [|fuel IH]; intros [i p l cs] word rep fr self' fr' r Hadd.
  { simpl in Hadd. injection Hadd as <- <- _.
    by rewrite Nat.sub_diag, app_nil_r. }
  pose proof (add_count _ _ _ _ _ _ _ _ Hadd) as [Hfr _].
  simpl in Hadd.
  destruct (_ && _ && _).
  { injection Hadd as <- <- _. by rewrite Nat.sub_diag, app_nil_r. }
  destruct word as [|w0 w].
  { injection Hadd as <- <- _. by rewrite Nat.sub_diag, app_nil_r. }
  destruct (PyDict.get w0 cs) as [child|] eqn:G; cycle 1.
  { injection Hadd as <- <- _.
    pose proof (flat_setitem node_ids w0 (Node fr (String w0 w) true []) cs) as H.
    rewrite G, app_nil_r in H.
    rewrite !node_ids_unfold. replace (S fr - fr)%nat with 1%nat by lia.
    simpl. constructor. exact H. }
  destruct (match_prefix child (String w0 w)) as [[m rp] rw] eqn:MP.
  assert (∀ w' rep' c' f' r',
            add fuel child w' rep' fr = (c', f', r') →
            node_ids (Node i p l (PyDict.setitem w0 c' cs))
            ≡ₚ (node_ids (Node i p l cs) ++ seq fr (f' - fr))%list) as Hrec.
  { intros w' rep' c' f' r' A. apply (node_ids_setitem _ _ _ _ _ child); [done|].
    by eapply IH. }
  destruct rp as [|p0 rp].
  - destruct rw as [|r0 rw].
    + destruct (add fuel child m false fr) as [[c' f'] r'] eqn:A.
      injection Hadd as <- <- _. eauto.
    + destruct m as [|m0 m].
      { injection Hadd as <- <- _. by rewrite Nat.sub_diag, app_nil_r. }
      destruct (add fuel child _ _ fr) as [[c' f'] r'] eqn:A.
      injection Hadd as <- <- _. eauto.
  - destruct m as [|m0 m].
    { injection Hadd as <- <- _. by rewrite Nat.sub_diag, app_nil_r. }
    destruct (PyDict.get m0 cs) as [child2|] eqn:G2.
    2:{ injection Hadd as <- <- _. by rewrite Nat.sub_diag, app_nil_r. }
    assert (∀ l', node_ids (Node fr (String m0 m) l'
                              [(p0, set_prefix (String p0 rp) child2)])
                  ≡ₚ (node_ids child2 ++ [fr])%list) as Hnew.
    { intros l'. rewrite node_ids_unfold. simpl foldr.
      destruct child2 as [i2 p2 l2 cs2]. simpl set_prefix.
      rewrite !node_ids_unfold, app_nil_r. solve_Permutation. }
    destruct rw as [|r0 rw].
    + injection Hadd as <- <- _.
      replace (S fr - fr)%nat with 1%nat by lia.
      apply (node_ids_setitem _ _ _ _ _ child2); [done|]. apply Hnew.
    + destruct (add fuel _ _ false (S fr)) as [[c' f'] r'] eqn:A.
      injection Hadd as <- <- _.
      pose proof (add_count _ _ _ _ _ _ _ _ A) as [Hfr' _].
      replace (f' - fr)%nat with (S (f' - S fr)) by lia.
      apply (node_ids_setitem _ _ _ _ _ child2); [done|].
      rewrite (IH _ _ _ _ _ _ _ A), Hnew. simpl. solve_Permutation.
Qed.

End RadixIds.

Section RadixPrograms.
Import RadixNode.

(** The queries leave the tree alone: a running program has the tree and
    the identity counter of a state reached by calls of [add]. *)
Lemma running_tree (s : RadixTrie.t) :
  running s →
  ∃ s0, RadixTrie.reachable s0 ∧ RadixTrie.root s = RadixTrie.root s0 ∧
        RadixTrie.fresh s = RadixTrie.fresh s0.
Proof.
  induction 1 as [|s word _ (s0 & Hs0 & Hr & Hf)|fuel s word _ IH
                  |fuel s text _ IH|fuel s text _ IH]; try done.
  - exists RadixTrie.init. split; [constructor|done].
  - exists (RadixTrie.add s0 word).1. split; [by constructor|].
    unfold RadixTrie.add. rewrite Hr, Hf.
    by destruct (add _ _ _ _ _) as [[root' fresh'] r].
Qed.

Lemma reachable_ids (s : RadixTrie.t) :
  RadixTrie.reachable s →
  node_ids (RadixTrie.root s) ≡ₚ seq 0 (RadixTrie.fresh s) ∧
  RadixTrie.size s = Z.of_nat (RadixTrie.fresh s).
Proof.
  induction 1 as [|s word _ [Hids Hsize]]; [done|].
  unfold RadixTrie.add, RadixTrie.size in *.
  destruct (add _ _ _ _ _) as [[root' fresh'] r] eqn:A.
  cbn [fst snd RadixTrie.root RadixTrie.fresh] in *.
  pose proof (add_count _ _ _ _ _ _ _ _ A) as [Hfr Hgrow].
  split; [|lia].
  rewrite (add_ids _ _ _ _ _ _ _ _ A), Hids, <- seq_app.
  by replace (RadixTrie.fresh s + (fresh' - RadixTrie.fresh s))%nat
    with fresh' by lia.
Qed.



End RadixPrograms.

(** X13. In a program that makes a trie and then calls [add] and the
    queries in any order, the nodes of the tree have pairwise different
    identities, namely every identity handed out so far: no node is ever
    dropped or shared, and [size()] is the number of nodes created,
    the root included. *)
Theorem nodes_created_once (s : RadixTrie.t) :
  running s →
  NoDup (node_ids (RadixTrie.root s)) ∧
  (∀ i : nat, i ∈ node_ids (RadixTrie.root s) ↔ (i < RadixTrie.fresh s)%nat) ∧
  RadixTrie.size s = Z.of_nat (RadixTrie.fresh s).
Proof.
  intros (s0 & Hs0 & Hr & Hf)%running_tree.
  destruct (reachable_ids s0 Hs0) as [Hids Hsize].
  unfold RadixTrie.size. rewrite Hr, Hf. split; [|split; [|done]].
  - rewrite Hids. apply NoDup_seq.
  - intros i. rewrite Hids, elem_of_seq. lia.
Qed.

Lemma nodes_created_once_witness :
  RadixTrie.size (RadixTrie.add (RadixTrie.add RadixTrie.init "test").1 "team").1
  = 4.
Proof.
  apply (nodes_created_once
           (RadixTrie.add (RadixTrie.add RadixTrie.init "test").1 "team").1).
  do 2 apply running_add. apply running_init.
Defined.



Section RadixPaths.
Import RadixNode.
#[local] Opaque match_prefix.

Lemma string_app_cons (a : ascii) (p y : string) :
  String a p ++ y = String a (p ++ y).
Proof. reflexivity. Qed.

Lemma string_app_assoc (a b c : string) : (a ++ b) ++ c = a ++ (b ++ c).
Proof.
  induction a as [|x a IH]; [done|]. by rewrite !string_app_cons, IH.
Qed.

Lemma split_common_whole (p y : string) : split_common p (p ++ y) = (p, "", y).
Proof.
  induction p as [|a p IH]; [by destruct y|].
  rewrite string_app_cons. simpl.
  by rewrite (proj2 (ascii_eqb_true a a) eq_refl), IH.
Qed.

(** What is spelled below a node depends on its mark and its children. *)
Lemma spells_attrs i p l cs i' p' x :
  spells (Node i p l cs) x → spells (Node i' p' l cs) x.
Proof.
  inversion 1 as [n Hl|n k c y G Hy]; subst.
  - by constructor.
  - by eapply spells_child.
Qed.

Lemma spells_marked i p l cs x :
  spells (Node i p l cs) x → spells (Node i p true cs) x.
Proof.
  inversion 1 as [n Hl|n k c y G Hy]; subst.
  - by constructor.
  - by eapply spells_child.
Qed.

Lemma spells_setitem_other i p l cs k v c x :
  PyDict.get k cs = Some c → spells c x →
  ∀ k', k' ≠ k → spells (Node i p l (PyDict.setitem k' v cs)) (prefix c ++ x).
Proof.
  intros G Hx k' Hne. eapply spells_child; [|done].
  simpl. by rewrite get_setitem_ne.
Qed.

(** [add] keeps every chain that was spelled below the node. *)
Lemma add_spells fuel :
  ∀ self word rep fr self' fr' r,
    add fuel self word rep fr = (self', fr', r) →
    well_keyed self →
    ∀ x, spells self x → spells self' x.
Proof.
  induction fuel as [|fuel IH]; intros [i p l cs] word rep fr self' fr' r Hadd H x Hx;
    simpl in Hadd.
  { by injection Hadd as <- _ _. }
  destruct (_ && _ && _).
  { injection Hadd as <- _ _. by eapply spells_marked. }
  destruct word as [|w0 w]; [by injection Hadd as <- _ _|].
  destruct (PyDict.get w0 cs) as [child|] eqn:G; cycle 1.
  { injection Hadd as <- _ _.
    inversion Hx as [n Hl|n k c y Gk Hy]; subst; [by constructor|].
    simpl in Gk. apply (spells_setitem_other _ _ _ _ k); [done..|].
    intros ->. congruence. }
  destruct (well_keyed_get _ _ _ _ _ _ H G) as [[rest Hpre] Hchild].
  simpl in Hpre. rewrite match_prefix_split, Hpre in Hadd.
  destruct (split_common _ _) as [[m rp] rw] eqn:SC.
  destruct (split_common_first _ _ _ _ _ _ SC) as [m' ->].
  destruct (split_common_prefix _ _ _ _ _ SC) as [Hsplit _].
  (* a chain through another child is not touched *)
  assert (∀ v, spells (Node i p l cs) x →
               (∀ y, spells child y → spells v y) →
               prefix v = prefix child →
               spells (Node i p l (PyDict.setitem w0 v cs)) x) as Hput.
  { intros v Hsp Hv Hpv.
    inversion Hsp as [n Hl|n k c y Gk Hy]; subst; [by constructor|].
    simpl in Gk. destruct (decide (w0 = k)) as [->|Hne].
    - assert (c = child) as -> by congruence.
      rewrite <- Hpv. eapply spells_child; [|by apply Hv].
      simpl. apply get_setitem_eq.
    - by apply (spells_setitem_other _ _ _ _ k). }
  destruct rp as [|p0 rp].
  - destruct rw as [|r0 rw].
    + destruct (add fuel child _ false fr) as [[c' f'] r'] eqn:A.
      injection Hadd as <- _ _.
      destruct (add_well_keyed _ _ _ _ _ _ _ _ A Hchild) as [_ Hp'].
      apply Hput; [done| |done]. intros y. by eapply IH.
    + destruct (add fuel child _ _ fr) as [[c' f'] r'] eqn:A.
      injection Hadd as <- _ _.
      destruct (add_well_keyed _ _ _ _ _ _ _ _ A Hchild) as [_ Hp'].
      apply Hput; [done| |done]. intros y. by eapply IH.
  - rewrite G in Hadd.
    set (aux := set_prefix (String p0 rp) child) in *.
    assert (well_keyed aux) as Haux.
    { subst aux. destruct child. by eapply well_keyed_attrs. }
    assert (∀ l', well_keyed (Node fr (String w0 m') l' [(p0, aux)])) as Hnew.
    { intros l'. apply well_keyed_unfold. split.
      - apply NoDup_singleton.
      - constructor; [|constructor]. split; [|done].
        subst aux. destruct child. by eexists. }
    (* a chain through the old child goes through the new node *)
    assert (∀ l' y, spells child y →
              spells (Node fr (String w0 m') l' [(p0, aux)])
                (String p0 rp ++ y)) as Hthrough.
    { intros l' y Hy.
      replace (String p0 rp) with (prefix aux)
        by (subst aux; by destruct child).
      eapply spells_child.
      - simpl. by rewrite (proj2 (ascii_eqb_true p0 p0) eq_refl).
      - subst aux. destruct child. by eapply spells_attrs. }
    assert (∀ v, (∀ y, spells child y → spells v (String p0 rp ++ y)) →
                 prefix v = String w0 m' →
                 spells (Node i p l (PyDict.setitem w0 v cs)) x) as Hput4.
    { intros v Hv Hpv.
      inversion Hx as [n Hl|n k c y Gk Hy]; subst; [by constructor|].
      simpl in Gk. destruct (decide (w0 = k)) as [->|Hne].
      - assert (c = child) as -> by congruence.
        rewrite Hpre, Hsplit, string_app_assoc, <- Hpv.
        eapply spells_child; [|by apply Hv]. simpl. apply get_setitem_eq.
      - by apply (spells_setitem_other _ _ _ _ k). }
    destruct rw as [|r0 rw].
    + injection Hadd as <- _ _. apply Hput4; [|done].
      intros y Hy. by apply Hthrough.
    + destruct (add fuel _ _ false (S fr)) as [[c' f'] r'] eqn:A.
      injection Hadd as <- _ _.
      destruct (add_well_keyed _ _ _ _ _ _ _ _ A (Hnew false)) as [_ Hp'].
      apply Hput4; [|done].
      intros y Hy. eapply IH; [done|apply Hnew|]. by apply Hthrough.
Qed.

(** Below a well-keyed node only its own mark spells the empty string. *)
Lemma spells_empty (n : t) :
  well_keyed n → spells n "" → is_leaf n = true.
Proof.
  intros Hk Hs. remember EmptyString as e eqn:E.
  destruct Hs as [n Hl|n k c y G Hy]; [done|].
  destruct n as [i p l cs].
  destruct (well_keyed_get _ _ _ _ _ _ Hk G) as [[rest Hp] _].
  simpl in Hp. rewrite Hp in E. discriminate E.
Qed.

Lemma find_S (fuel : nat) (root n : t) (word : string) (args : call_args)
    (memo : cache) :
  find (S fuel) root n word args memo =
  cached (nid n, word, args)
    (find_body (find fuel root) root n word (loop_of args)) memo.
Proof. reflexivity. Qed.

Lemma find_body_child
    (find' : t → string → call_args → cache → outcome Z * cache)
    (root n c : t) (w0 : ascii) (w : string) (loop : bool) (memo : cache) :
  PyDict.get w0 (children n) = Some c →
  find_body find' root n (String w0 w) loop memo =
  explore (λ c' w' m, find' c' w' (Positional loop) m) (String w0 w)
    (Some c :: (if is_leaf n && loop
                then [PyDict.get w0 (children root)] else [])) 0 memo.
Proof. intros G. unfold find_body. by rewrite G. Qed.

(** A plain lookup follows a spelled chain to its end and answers 1. *)
Lemma find_spelled (root n : t) (x : string) :
  spells n x → x ≠ "" → well_keyed n →
  ∀ args : call_args, loop_of args = false →
    ∃ fuel0 : nat, ∀ k : nat, ∃ memo' : cache,
      find (fuel0 + k) root n x args ∅ = (Return 1, memo').
Proof.
  induction 1 as [n Hl|n key c y G Hy IH]; intros Hne Hk args Hloop; [done|].
  destruct n as [i p l cs].
  destruct (well_keyed_get _ _ _ _ _ _ Hk G) as [[rest Hp] Hc].
  simpl in Hp, G, Hc.
  assert (∃ f0 : nat, ∀ k : nat, ∃ m1 : cache,
            explore (λ c' w m, find (f0 + k) root c' w (Positional false) m)
              (prefix c ++ y) [Some c] 0 ∅ = (Return 1, m1)) as [f0 Hex].
  { destruct y as [|y0 y].
    - exists 0%nat. intros k. exists ∅. simpl.
      rewrite match_prefix_split, split_common_whole.
      by rewrite (spells_empty _ Hc Hy).
    - destruct (IH ltac:(done) Hc (Positional false) eq_refl) as [f0 Hf].
      exists f0. intros k. destruct (Hf k) as [m1 Hm1]. exists m1. simpl.
      rewrite match_prefix_split, split_common_whole. by rewrite Hm1. }
  exists (S f0). intros k. destruct (Hex k) as [m1 Hm1].
  exists (<[(i, prefix c ++ y, args) := 1]> m1).
  change (S f0 + k)%nat with (S (f0 + k)). rewrite find_S. unfold cached.
  rewrite lookup_empty, Hp, string_app_cons.
  rewrite (find_body_child _ _ _ c) by done.
  rewrite Hloop, andb_false_r.
  rewrite Hp, string_app_cons in Hm1. by rewrite Hm1.
Qed.

End RadixPaths.

Section RadixMembership.
Import RadixNode.

Lemma reachable_memo (s : RadixTrie.t) :
  RadixTrie.reachable s → RadixTrie.memo s = ∅.
Proof.
  induction 1 as [|s word _ IH]; [done|].
  unfold RadixTrie.add. by destruct (add _ _ _ _ _) as [[root' fresh'] r].
Qed.

Lemma add_many_spells (words : list string) :
  ∀ (s : RadixTrie.t) (x : string),
    RadixTrie.reachable s →
    spells (RadixTrie.root s) x →
    spells (RadixTrie.root (RadixTrie.add_many s words).1) x.
Proof.
  induction words as [|w words IH]; intros s x Hs Hx; simpl; [done|].
  pose proof (RadixTrie.reachable_add s w Hs) as Hs'.
  assert (spells (RadixTrie.root (RadixTrie.add s w).1) x) as Hx'.
  { apply reachable_well_keyed in Hs as [_ Hk]. unfold RadixTrie.add.
    destruct (add _ _ _ _ _) as [[root' fresh'] r] eqn:A. simpl.
    by eapply add_spells. }
  destruct (RadixTrie.add s w) as [s' [[]|e|]]; simpl in *; auto.
Qed.


Lemma is_word_spelled (s : RadixTrie.t) (x : string) :
  RadixTrie.reachable s →
  spells (RadixTrie.root s) x →
  x ≠ "" →
  ∃ fuel0 : nat, ∀ k : nat,
    (RadixTrie.is_word (fuel0 + k) s x).2 = Return true.
Proof.
  intros Hs Hx Hne.
  pose proof (reachable_memo s Hs) as Hm.
  apply reachable_well_keyed in Hs as [_ Hk].
  destruct (find_spelled (RadixTrie.root s) _ _ Hx Hne Hk OnlyWord eq_refl)
    as [fuel0 Hf].
  exists fuel0. intros k. destruct (Hf k) as [memo' Hfind].
  unfold RadixTrie.is_word, RadixTrie.positive. by rewrite Hm, Hfind.
Qed.

End RadixMembership.

(** X15. [add] never takes a stored chain away: a text spelled by the
    prefixes along a chain of children from the root to a leaf is still
    spelled so after any further [add_many], also one that raises. *)
Theorem spelled_words_stay (s : RadixTrie.t) (words : list string) (x : string) :
  RadixTrie.reachable s →
  spells (RadixTrie.root s) x →
  spells (RadixTrie.root (RadixTrie.add_many s words).1) x.
Proof. intros. by apply add_many_spells. Qed.

Lemma spelled_words_stay_witness :
  spells (RadixTrie.root (RadixTrie.add_many (built ["ab"]) ["abc"; "a"]).1) "ab".
Proof.
  apply (spelled_words_stay (built ["ab"]) ["abc"; "a"] "ab").
  - change (built ["ab"]) with (RadixTrie.add RadixTrie.init "ab").1.
    apply RadixTrie.reachable_add, RadixTrie.reachable_init.
  - apply (spells_child _ "a"%char (RadixNode.Node 1 "ab" true []) "").
    + reflexivity.
    + by apply spells_here.
Defined.

(** X16. In a state reached by calls of [add], [is_word] finds every
    non-empty text that the tree spells: with enough fuel it returns
    [True]. *)
Theorem spelled_word_is_found (s : RadixTrie.t) (x : string) :
  RadixTrie.reachable s →
  spells (RadixTrie.root s) x →
  x ≠ "" →
  ∃ fuel0 : nat, ∀ k : nat,
    (RadixTrie.is_word (fuel0 + k) s x).2 = Return true.
Proof. apply is_word_spelled. Qed.

Lemma spelled_word_is_found_witness :
  ∃ fuel0 : nat, ∀ k : nat,
    (RadixTrie.is_word (fuel0 + k) (built ["ab"]) "ab").2 = Return true.
Proof.
  apply (spelled_word_is_found (built ["ab"]) "ab").
  - change (built ["ab"]) with (RadixTrie.add RadixTrie.init "ab").1.
    apply RadixTrie.reachable_add, RadixTrie.reachable_init.
  - apply (spells_child _ "a"%char (RadixNode.Node 1 "ab" true []) "").
    + reflexivity.
    + by apply spells_here.
  - discriminate.
Defined.



Section RadixFuel.
Import RadixNode.
#[local] Opaque match_prefix.

Lemma explore_extends (rec1 rec2 : t → string → cache → outcome Z * cache) word :
  (∀ c w (m m' : cache) o, rec1 c w m = (o, m') → o ≠ NoFuel → rec2 c w m = (o, m')) →
  ∀ candidates result (memo memo' : cache) o,
    explore rec1 word candidates result memo = (o, memo') → o ≠ NoFuel →
    explore rec2 word candidates result memo = (o, memo').
Proof.
  intros Hext. induction candidates as [|[child|] rest IH];
    intros result memo memo' o; simpl; [done| |done].
  destruct (match_prefix child word) as [[m rp] rw].
  destruct rp; [|apply IH]. destruct rw; [apply IH|].
  destruct (rec1 child _ memo) as [o1 m1] eqn:R1.
  destruct o1 as [v|e|].
  - rewrite (Hext _ _ _ _ _ R1) by done. apply IH.
  - rewrite (Hext _ _ _ _ _ R1) by done. done.
  - by intros [= <- <-].
Qed.

Lemma find_body_extends
    (rec1 rec2 : t → string → call_args → cache → outcome Z * cache)
    (root n : t) (word : string) (loop : bool) (memo memo' : cache) o :
  (∀ c w a (m m' : cache) o, rec1 c w a m = (o, m') → o ≠ NoFuel → rec2 c w a m = (o, m')) →
  find_body rec1 root n word loop memo = (o, memo') → o ≠ NoFuel →
  find_body rec2 root n word loop memo = (o, memo').
Proof.
  intros Hext. unfold find_body. destruct word as [|w0 w]; [done|].
  destruct (PyDict.get w0 (children n)).
  - apply explore_extends. intros c w' m m' o'. apply Hext.
  - destruct (negb (is_leaf n)); [done|]. apply Hext.
Qed.

(** More fuel does not change an answer of the plain [find]. *)
Lemma find_plain_more (fuel : nat) :
  ∀ (root n : t) (word : string) (loop : bool) o (k : nat),
    find_plain fuel root n word loop = o → o ≠ NoFuel →
    find_plain (fuel + k) root n word loop = o.
Proof.
  induction fuel as [|fuel IH]; intros root n word loop o k; simpl;
    [by intros <-|].
  intros H Hne.
  destruct (find_body _ root n word loop ∅) as [o1 m1] eqn:B.
  simpl in H. subst o1.
  erewrite find_body_extends; [done| |exact B|done].
  intros c w a m m' o' [= <- <-] Ho'. by rewrite (IH _ _ _ _ _ k eq_refl Ho').
Qed.

(** More fuel does not change an answer of the decorated [find] either,
    nor what it stores. *)
Lemma find_more (fuel : nat) :
  ∀ (root n : t) (word : string) (args : call_args) (memo memo' : cache) o
    (k : nat),
    find fuel root n word args memo = (o, memo') → o ≠ NoFuel →
    find (fuel + k) root n word args memo = (o, memo').
Proof.
  induction fuel as [|fuel IH]; intros root n word args memo memo' o k;
    [by intros [= <- <-]|].
  change (S fuel + k)%nat with (S (fuel + k)). rewrite !find_S. unfold cached.
  destruct (memo !! (nid n, word, args)); [done|].
  destruct (find_body (find fuel root) _ _ _ _ _) as [o1 m1] eqn:B.
  intros H Hne.
  assert (o1 ≠ NoFuel) as Hne1 by (destruct o1; congruence).
  erewrite find_body_extends; [exact H| |exact B|done].
  intros c w a m m' o'. apply IH.
Qed.

End RadixFuel.

Section RadixTree.
Import RadixNode.

Lemma in_tree_child (k : ascii) (c n root : t) :
  PyDict.get k (children n) = Some c → in_tree n root → in_tree c root.
Proof.
  intros G%get_Some_elem [->|Hn]; right.
  - by eapply below_child.
  - induction Hn as [k' c' n' Hin|k' c' d n' Hin Hd IH].
    + eapply below_deeper; [done|]. by eapply below_child.
    + eapply below_deeper; [done|]. by apply IH.
Qed.

Lemma below_in_child (n root : t) :
  below n root → ∃ k c, (k, c) ∈ children root ∧ in_tree n c.
Proof.
  destruct 1 as [k c n' Hin|k c d n' Hin Hd].
  - exists k, c. split; [done|by left].
  - exists k, c. split; [done|by right].
Qed.

Lemma child_ids_included (cs : list (ascii * t)) k c i :
  (k, c) ∈ cs → i ∈ node_ids c →
  i ∈ foldr (λ kc acc, (node_ids kc.2 ++ acc)%list) [] cs.
Proof.
  induction cs as [|[k' c'] cs IH]; [by intros ?%elem_of_nil|].
  intros [[= <- <-]|Hin]%elem_of_cons Hi; simpl; apply elem_of_app; auto.
Qed.

Lemma in_tree_id (root : t) :
  ∀ n, in_tree n root → nid n ∈ node_ids root.
Proof.
  induction root as [i p l cs IH] using radix_node_ind.
  intros n [->|Hn]; rewrite node_ids_unfold; [by left|right].
  apply below_in_child in Hn as (k & c & Hin & Hn). simpl in Hin.
  eapply child_ids_included; [done|].
  eapply Forall_forall in IH; [|done]. by apply IH.
Qed.

(** Two children whose trees share an identity are one entry. *)
Lemma children_apart (cs : list (ascii * t)) k1 c1 k2 c2 i :
  NoDup (foldr (λ kc acc, (node_ids kc.2 ++ acc)%list) [] cs) →
  (k1, c1) ∈ cs → (k2, c2) ∈ cs →
  i ∈ node_ids c1 → i ∈ node_ids c2 → c1 = c2.
Proof.
  induction cs as [|[k c] cs IH]; [by intros _ ?%elem_of_nil|].
  simpl. intros [Hc [Hdis Hcs]]%NoDup_app
    [[= <- <-]|H1]%elem_of_cons [[= <- <-]|H2]%elem_of_cons Hi1 Hi2.
  - done.
  - destruct (Hdis i Hi1). by eapply child_ids_included.
  - destruct (Hdis i Hi2). by eapply child_ids_included.
  - by apply IH.
Qed.

(** In a tree without repeated identities a node is known by its
    identity. *)
Lemma node_by_id (root : t) :
  NoDup (node_ids root) →
  ∀ n1 n2, in_tree n1 root → in_tree n2 root → nid n1 = nid n2 → n1 = n2.
Proof.
  induction root as [i p l cs IH] using radix_node_ind.
  rewrite node_ids_unfold. intros [Hi Hcs]%NoDup_cons n1 n2 H1 H2 Hid.
  assert (∀ n, below n (Node i p l cs) → nid n ≠ i) as Hbelow.
  { intros n (k & c & Hin & Hn)%below_in_child E. apply Hi. rewrite <- E.
    eapply child_ids_included; [done|]. by apply in_tree_id. }
  destruct H1 as [->|H1], H2 as [->|H2]; [done| | |].
  - by destruct (Hbelow n2 H2).
  - by destruct (Hbelow n1 H1).
  - apply below_in_child in H1 as (k1 & c1 & Hin1 & Hn1).
    apply below_in_child in H2 as (k2 & c2 & Hin2 & Hn2). simpl in Hin1, Hin2.
    pose proof (in_tree_id _ _ Hn1) as Hid1.
    pose proof (in_tree_id _ _ Hn2) as Hid2. rewrite <- Hid in Hid2.
    assert (c1 = c2) as <- by (by eapply children_apart).
    eapply Forall_forall in IH; [|exact Hin1].
    apply IH; [|done..].
    clear -Hcs Hin1. induction cs as [|[k c] cs IHcs]; [by apply elem_of_nil in Hin1|].
    simpl in Hcs. apply NoDup_app in Hcs as [Hc [_ Hcs]].
    apply elem_of_cons in Hin1 as [[= <- <-]|Hin1]; auto.
Qed.

End RadixTree.

Section RadixCache.
Import RadixNode.
#[local] Opaque match_prefix.

Lemma find_plain_S (fuel : nat) (root n : t) (word : string) (loop : bool) :
  find_plain (S fuel) root n word loop =
  (find_body (λ n w a m, (find_plain fuel root n w (loop_of a), m))
     root n word loop ∅).1.
Proof. reflexivity. Qed.

(** The loop over the candidates, with the cache and without. *)
Lemma explore_sound (root : t) (loop : bool)
    (rec : t → string → cache → outcome Z * cache) (word : string) :
  (∀ c w (m m' : cache) o,
     in_tree c root → sound root m → rec c w m = (o, m') →
     sound root m' ∧ (o ≠ NoFuel → ∃ f, find_plain f root c w loop = o)) →
  ∀ candidates result (memo memo' : cache) o,
    Forall (λ oc, ∀ c, oc = Some c → in_tree c root) candidates →
    sound root memo →
    explore rec word candidates result memo = (o, memo') →
    sound root memo' ∧
    (o ≠ NoFuel →
     ∃ f, ∀ mp : cache,
       explore (λ c w m, (find_plain f root c w loop, m))
         word candidates result mp = (o, mp)).
Proof.
  intros Hrec. induction candidates as [|[child|] rest IH];
    intros result memo memo' o Hin Hs; simpl.
  - intros [= <- <-]. split; [done|]. intros _. by exists 0%nat.
  - apply Forall_cons in Hin as [Hchild Hin].
    destruct (match_prefix child word) as [[m rp] rw].
    destruct rp; [|by apply IH]. destruct rw; [by apply IH|].
    destruct (rec child _ memo) as [o1 m1] eqn:R.
    destruct (Hrec _ _ _ _ _ (Hchild _ eq_refl) Hs R) as [Hs1 Hplain].
    destruct o1 as [v|e|].
    + intros E. destruct (IH _ _ _ _ Hin Hs1 E) as [Hs' Hrest].
      split; [done|]. intros Hne.
      destruct (Hplain ltac:(done)) as [f1 Hf1].
      destruct (Hrest Hne) as [f2 Hf2].
      exists (f1 + f2)%nat. intros mp.
      rewrite (find_plain_more _ _ _ _ _ _ f2 Hf1) by done.
      rewrite (Nat.add_comm f1 f2).
      eapply explore_extends; [|apply Hf2|done].
      intros c w m0 m0' o0 [= <- <-] Ho0.
      by rewrite (find_plain_more _ _ _ _ _ _ f1 eq_refl Ho0).
    + intros [= <- <-]. split; [done|]. intros _.
      destruct (Hplain ltac:(done)) as [f1 Hf1].
      exists f1. intros mp. by rewrite Hf1.
    + intros [= <- <-]. by split.
  - intros [= <- <-]. split; [done|]. intros _. by exists 0%nat.
Qed.

(** On a tree whose nodes have different identities, with a cache that
    holds only answers of the body, the decorated [find] ends as the body
    alone does and leaves such a cache. *)
Lemma find_sound (root : t) (Hids : NoDup (node_ids root)) (fuel : nat) :
  ∀ (n : t) (word : string) (args : call_args) (memo memo' : cache) o,
    in_tree n root → sound root memo →
    find fuel root n word args memo = (o, memo') →
    sound root memo' ∧
    (o ≠ NoFuel → ∃ f, find_plain f root n word (loop_of args) = o).
Proof.
  induction fuel as [|fuel IH]; intros n word args memo memo' o Hn Hs.
  { intros [= <- <-]. by split. }
  rewrite find_S. unfold cached.
  destruct (memo !! (nid n, word, args)) as [v0|] eqn:Hhit.
  { intros [= <- <-]. split; [done|]. intros _. by eapply Hs. }
  assert (∀ o1 (m1 : cache),
            find_body (find fuel root) root n word (loop_of args) memo = (o1, m1) →
            sound root m1 ∧
            (o1 ≠ NoFuel → ∃ f, find_plain f root n word (loop_of args) = o1))
    as Hbody.
  { intros o1 m1. destruct word as [|w0 w].
    { intros [= <- <-]. split; [done|]. intros _. by exists 1%nat. }
    destruct (PyDict.get w0 (children n)) as [child|] eqn:G.
    - rewrite (find_body_child _ _ _ child) by done. intros E.
      eapply (explore_sound root (loop_of args)) in E as [Hs1 Hplain];
        [| | |exact Hs].
      + split; [done|]. intros Hne. destruct (Hplain Hne) as [f Hf].
        exists (S f). rewrite find_plain_S, (find_body_child _ _ _ child) by done.
        cbv beta. change (loop_of (Positional (loop_of args))) with (loop_of args).
        by rewrite Hf.
      + intros c w' m m' o' Hc Hm R. exact (IH _ _ _ _ _ _ Hc Hm R).
      + constructor.
        { intros c [= <-]. by eapply in_tree_child. }
        destruct (is_leaf n && loop_of args); [|constructor].
        constructor; [|constructor]. intros c Hc.
        eapply in_tree_child; [exact Hc|by left].
    - unfold find_body. rewrite G. destruct (is_leaf n) eqn:Hl; simpl.
      + intros R. destruct (IH _ _ _ _ _ _ (or_introl eq_refl) Hs R)
          as [Hs1 Hplain].
        split; [done|]. intros Hne. destruct (Hplain Hne) as [f Hf].
        exists (S f). rewrite find_plain_S. unfold find_body.
        rewrite G, Hl. simpl. exact Hf.
      + intros [= <- <-]. split; [done|]. intros _. exists 1%nat.
        rewrite find_plain_S. unfold find_body. by rewrite G, Hl. }
  destruct (find_body _ _ _ _ _ _) as [o1 m1] eqn:B.
  destruct (Hbody _ _ eq_refl) as [Hs1 Hplain].
  destruct o1 as [v|e|]; intros [= <- <-]; [|by split..].
  split; [|done].
  intros n' w' a' v' Hn' Hlook.
  destruct (decide ((nid n, word, args) = (nid n', w', a'))) as [E|Hne].
  - rewrite <- E, lookup_insert_eq in Hlook. injection Hlook as <-.
    injection E as Hid <- <-.
    rewrite <- (node_by_id root Hids n n' Hn Hn' Hid). by apply Hplain.
  - rewrite lookup_insert_ne in Hlook by done. by eapply Hs1.
Qed.

Lemma frozen_sound (s : RadixTrie.t) :
  frozen s →
  NoDup (node_ids (RadixTrie.root s)) ∧
  sound (RadixTrie.root s) (RadixTrie.memo s).
Proof.
  induction 1 as [s Hs|fuel s word _ [Hids Hsound]
                  |fuel s text _ [Hids Hsound]|fuel s text _ [Hids Hsound]].
  - split.
    + destruct (reachable_ids s Hs) as [-> _]. apply NoDup_seq.
    + rewrite (reachable_memo s Hs). intros n w a v _ H.
      by rewrite lookup_empty in H.
  - unfold RadixTrie.is_word. simpl. split; [done|].
    destruct (find fuel _ _ word OnlyWord _) as [o m] eqn:F.
    by eapply (find_sound _ Hids) in F as [? _]; [|left|].
  - unfold RadixTrie.is_sentence. simpl. split; [done|].
    destruct (find fuel _ _ text (Keyword true) _) as [o m] eqn:F.
    by eapply (find_sound _ Hids) in F as [? _]; [|left|].
  - unfold RadixTrie.possible_sentences. simpl. split; [done|].
    destruct (find fuel _ _ text (Keyword true) _) as [o m] eqn:F.
    by eapply (find_sound _ Hids) in F as [? _]; [|left|].
Qed.

End RadixCache.

(** X18. In a program that builds the trie by calls of [add] and from then
    on only queries it, the cache changes no answer: whatever
    [possible_sentences] returns or raises, the body of [find] alone
    computes on the tree, and what [is_word] and [is_sentence] return is
    the sign of that count. *)
Theorem frozen_trie_cache_is_faithful (s : RadixTrie.t) :
  frozen s →
  ∀ (fuel : nat) (text : string),
    (∀ o : outcome Z,
       (RadixTrie.possible_sentences fuel s text).2 = o → o ≠ NoFuel →
       ∃ f : nat,
         find_plain f (RadixTrie.root s) (RadixTrie.root s) text true = o) ∧
    (∀ b : bool,
       (RadixTrie.is_sentence fuel s text).2 = Return b →
       ∃ (f : nat) (v : Z),
         find_plain f (RadixTrie.root s) (RadixTrie.root s) text true = Return v ∧
         b = (0 <? v)) ∧
    (∀ b : bool,
       (RadixTrie.is_word fuel s text).2 = Return b →
       ∃ (f : nat) (v : Z),
         find_plain f (RadixTrie.root s) (RadixTrie.root s) text false = Return v ∧
         b = (0 <? v)).
Proof.
  intros [Hids Hsound]%frozen_sound fuel text.
  unfold RadixTrie.possible_sentences, RadixTrie.is_sentence,
    RadixTrie.is_word, RadixTrie.positive. simpl.
  split; [|split].
  - intros o. destruct (RadixNode.find fuel _ _ text (Keyword true) _)
      as [o1 m1] eqn:F. simpl. intros -> Hne.
    destruct (find_sound _ Hids fuel _ _ _ _ _ _ (or_introl eq_refl) Hsound F)
      as [_ H].
    by apply H.
  - intros b. destruct (RadixNode.find fuel _ _ text (Keyword true) _)
      as [[v|e|] m1] eqn:F; simpl; try done. intros [= <-].
    destruct (find_sound _ Hids fuel _ _ _ _ _ _ (or_introl eq_refl) Hsound F)
      as [_ H].
    destruct (H ltac:(done)) as [f Hf]. by exists f, v.
  - intros b. destruct (RadixNode.find fuel _ _ text OnlyWord _)
      as [[v|e|] m1] eqn:F; simpl; try done. intros [= <-].
    destruct (find_sound _ Hids fuel _ _ _ _ _ _ (or_introl eq_refl) Hsound F)
      as [_ H].
    destruct (H ltac:(done)) as [f Hf]. by exists f, v.
Qed.

Lemma frozen_trie_cache_is_faithful_witness :
  ∃ f : nat,
    find_plain f (RadixTrie.root (built ["a"; "ab"; "b"]))
      (RadixTrie.root (built ["a"; "ab"; "b"])) "ab" true = Return 2.
Proof.
  apply (proj1 (frozen_trie_cache_is_faithful
                  (RadixTrie.possible_sentences 2 (built ["a"; "ab"; "b"]) "ab").1
                  (frozen_possible_sentences 2 _ "ab"
                     (frozen_built (built ["a"; "ab"; "b"])
                        (RadixTrie.reachable_add _ "b"
                           (RadixTrie.reachable_add _ "ab"
                              (RadixTrie.reachable_add _ "a"
                                 RadixTrie.reachable_init)))))
                  1%nat "ab") (Return 2)).
  - vm_compute; reflexivity.
  - discriminate.
Defined.
